(** * The session subsystem of dragonfly: a shallow embedding

    The development follows [dragonfly/session/session.go].  A session is a
    heap object reached through a pointer; the package keeps one global
    slice of open sessions.  Methods are state transformers over a global
    state that holds the heap, the slice and the trace of calls made to
    the external collaborators (connection, world, loader, chat, logger).
    A call that leaves the package is recorded in the trace and not
    followed any further.  A Go run-time panic is an explicit outcome. *)

From Stdlib Require Import ZArith String List Lia.
From stdpp Require Import base gmap sets list strings sorting.

Open Scope Z_scope.

(** ** Data model *)

(** Identities of objects that live outside of the package.  Pointers and
    interface values are compared by identity in the source, so they are
    modelled by names. *)
Definition Ptr := positive.       (* *Session *)
Definition Entity := positive.    (* world.Entity, Controllable *)
Definition Conn := positive.      (* *minecraft.Conn *)
Definition WorldRef := positive.  (* *world.World *)
Definition Logger := positive.    (* *logrus.Logger *)
Definition Callback := positive.  (* func(controllable Controllable) *)
Definition Err := string.         (* a non-nil error *)

Bind Scope positive_scope with Ptr Entity Conn WorldRef Logger Callback.

(** Inbound and outbound messages: the concrete types the dispatcher
    switches on, each with the rendering of its fields, and every other
    packet type under its type name. *)
Inductive Packet :=
| Text (fields : string)
| CommandRequest (fields : string)
| MovePlayer (fields : string)
| RequestChunkRadius (fields : string)
| BossEvent (fields : string)
| OtherPacket (tyname : string) (fields : string).

#[global] Instance Packet_eq_dec : EqDecision Packet.
Proof. solve_decision. Defined.

(** [world.Loader], as far as the session sees it. *)
Record Loader := mkLoader {
  loaderRadius : Z;
  loaderWorld : WorldRef;
  loaderViewer : Ptr
}.

(** [type Session struct].  The two mutexes and the chunk buffer carry no
    data of their own and are left out. *)
Record Session := mkSession {
  log : Logger;
  c : Entity;
  world : WorldRef;
  conn : Conn;
  scoreboardObj : string;
  chunkLoader : Loader;
  chunkRadius : Z;
  maxChunkRadius : Z;
  currentEntityRuntimeID : Z;
  entityRuntimeIDs : gmap Entity Z;
  onStop : option Callback
}.

(** Calls that leave the package, in the order they are made. *)
Inductive Event :=
| EvControllableClose (e : Entity)
| EvConnClose (k : Conn)
| EvLoaderClose (s : Ptr)
| EvWorldAddEntity (w : WorldRef) (e : Entity)
| EvWorldRemoveEntity (w : WorldRef) (e : Entity)
| EvSendAvailableCommands (s : Ptr)
| EvChat (k : Conn) (msg : string)
| EvOnStop (cb : Callback) (e : Entity)
| EvLoaderLoad (s : Ptr) (n : Z)
| EvLogError (msg : string)
| EvLogDebug (msg : string)
| EvWritePacket (k : Conn) (pk : Packet).

#[global] Instance Event_eq_dec : EqDecision Event.
Proof. solve_decision. Defined.

(** The package state: the heap of sessions built by [New], the global
    [sessions] slice, the presence list of every session (the sessions its
    client has been told about and not been told to remove), and the
    trace.  [sessionMutex] is held for the whole of [initPlayerList] and of
    [closePlayerList], which makes each of them one atomic transformer. *)
Record State := mkState {
  heap : gmap Ptr Session;
  sessions : list Ptr;
  playerLists : gmap Ptr (gset Ptr);
  trace : list Event
}.

(** [var Nop = &Session{}]: a pointer of its own, with every field zero. *)
Definition Nop : Ptr := 1%positive.

(** [const selfEntityRuntimeID = 1] *)
Definition selfEntityRuntimeID : Z := 1.

Definition emptyState : State :=
  {| heap := ∅; sessions := []; playerLists := ∅; trace := [] |}.

(** ** Outcomes and sequencing *)

Inductive Res (A : Type) :=
| Ok (a : A) (st : State)
| Panic (msg : string) (st : State).
Arguments Ok {A} a st.
Arguments Panic {A} msg st.

Definition M (A : Type) := State -> Res A.

Definition ret {A} (a : A) : M A := fun st => Ok a st.

Definition bind {A B} (m : M A) (k : A -> M B) : M B :=
  fun st => match m st with
            | Ok a st' => k a st'
            | Panic msg st' => Panic msg st'
            end.

Notation "'do' x <- m ; k" := (bind m (fun x => k))
  (at level 10, x name, m at level 100, k at level 200, only parsing).
Notation "'call' m ; k" := (bind m (fun _ => k))
  (at level 10, m at level 100, k at level 200, only parsing).

Definition panic {A} (msg : string) : M A := fun st => Panic msg st.

Definition emit (e : Event) : M unit :=
  fun st => Ok tt {| heap := heap st; sessions := sessions st;
                     playerLists := playerLists st;
                     trace := trace st ++ [e] |}.

(** Reading through a session pointer.  A pointer that [New] did not
    return has nil fields, and the methods below call through them. *)
Definition deref (s : Ptr) : M Session :=
  fun st => match heap st !! s with
            | Some r => Ok r st
            | None => Panic "runtime error: invalid memory address or nil pointer dereference" st
            end.

Definition store (s : Ptr) (r : Session) : M unit :=
  fun st => Ok tt {| heap := <[s := r]> (heap st); sessions := sessions st;
                     playerLists := playerLists st; trace := trace st |}.

Definition stateOf {A} (r : Res A) : State :=
  match r with Ok _ st => st | Panic _ st => st end.

Definition isOk {A} (r : Res A) : bool :=
  match r with Ok _ _ => true | Panic _ _ => false end.

(** ** Construction *)

(** Conversion of a Go [int] to [int32] keeps the low 32 bits. *)
Definition int32 (z : Z) : Z := (z + 2^31) mod 2^32 - 2^31.

Definition set_entityRuntimeIDs (m : gmap Entity Z) (r : Session) : Session :=
  {| log := log r; c := c r; world := world r; conn := conn r;
     scoreboardObj := scoreboardObj r; chunkLoader := chunkLoader r;
     chunkRadius := chunkRadius r; maxChunkRadius := maxChunkRadius r;
     currentEntityRuntimeID := currentEntityRuntimeID r;
     entityRuntimeIDs := m; onStop := onStop r |}.


Definition set_onStop (f : option Callback) (r : Session) : Session :=
  {| log := log r; c := c r; world := world r; conn := conn r;
     scoreboardObj := scoreboardObj r; chunkLoader := chunkLoader r;
     chunkRadius := chunkRadius r; maxChunkRadius := maxChunkRadius r;
     currentEntityRuntimeID := currentEntityRuntimeID r;
     entityRuntimeIDs := entityRuntimeIDs r; onStop := f |}.

(** The struct literal of [New], with the loader and the scoreboard
    objective that [New] stores right after it. *)
Definition newSession (s : Ptr) (c0 : Entity) (k : Conn) (w : WorldRef)
    (maxChunkRadius0 : Z) (lg : Logger) : Session :=
  {| log := lg; c := c0; world := w; conn := k;
     scoreboardObj := "";
     chunkLoader := mkLoader (Z.quot maxChunkRadius0 2) w s;
     chunkRadius := int32 (Z.quot maxChunkRadius0 2);
     maxChunkRadius := int32 maxChunkRadius0;
     currentEntityRuntimeID := 1;
     entityRuntimeIDs := {[ c0 := selfEntityRuntimeID ]};
     onStop := None |}.

(** The address of a new allocation differs from every live one. *)
Definition freshPtr (st : State) : Ptr := fresh ({[Nop]} ∪ dom (heap st)).

Definition New (c0 : Entity) (k : Conn) (w : WorldRef) (maxChunkRadius0 : Z)
    (lg : Logger) : M Ptr :=
  fun st => let s := freshPtr st in
            (call store s (newSession s c0 k w maxChunkRadius0 lg); ret s) st.

(** ** Presence lists *)

Definition playerList (st : State) (s : Ptr) : gset Ptr := playerLists st !!! s.

(** Modelled from the spec: [addToPlayerList] is defined in a file of the
    package that is not part of the sources at hand.  The receiver is told
    about [other]: [other] becomes an entry of the receiver's presence
    list.  The list holds one entry per session it was told about. *)
Definition addToPlayerList (recv other : Ptr) : M unit :=
  fun st => Ok tt {| heap := heap st; sessions := sessions st;
                     playerLists := <[recv := {[other]} ∪ playerList st recv]> (playerLists st);
                     trace := trace st |}.

(** Modelled from the spec: [removeFromPlayerList] is defined in a file of
    the package that is not part of the sources at hand.  [other] is
    removed from the receiver's presence list; absence is no error. *)
Definition removeFromPlayerList (recv other : Ptr) : M unit :=
  fun st => Ok tt {| heap := heap st; sessions := sessions st;
                     playerLists := <[recv := playerList st recv ∖ {[other]}]> (playerLists st);
                     trace := trace st |}.

Definition setSessions (l : list Ptr) : M unit :=
  fun st => Ok tt {| heap := heap st; sessions := l;
                     playerLists := playerLists st; trace := trace st |}.

(** The body of the [range] loop of [initPlayerList]. *)
Fixpoint initPlayerList_loop (s : Ptr) (rng : list Ptr) : M unit :=
  match rng with
  | [] => ret tt
  | session :: rest =>
      call addToPlayerList session s;
      call addToPlayerList s session;
      initPlayerList_loop s rest
  end.

Definition initPlayerList (s : Ptr) : M unit :=
  fun st => let l := sessions st ++ [s] in
            (call setSessions l; initPlayerList_loop s l) st.

(** The [range] loop of [closePlayerList]; [n] is the slice being built. *)
Fixpoint closePlayerList_loop (s : Ptr) (rng : list Ptr) (n : list Ptr) : M (list Ptr) :=
  match rng with
  | [] => ret n
  | session :: rest =>
      let n' := if decide (session ≠ s) then n ++ [session] else n in
      call removeFromPlayerList session s;
      closePlayerList_loop s rest n'
  end.

(** [make([]*Session, 0, len(sessions)-1)] panics at run time when the
    capacity is negative. *)
Definition makeSlice (cap : Z) : M (list Ptr) :=
  if cap <? 0 then panic "runtime error: makeslice: cap out of range" else ret [].

Definition closePlayerList (s : Ptr) : M unit :=
  fun st => (do n <- makeSlice (Z.of_nat (length (sessions st)) - 1);
             do n' <- closePlayerList_loop s (sessions st) n;
             setSessions n') st.

(** ** Lifecycle *)

Definition leftTheGame : string := "has left the game".
Definition joinedTheGame : string := "has joined the game".

(** [s.entityRuntimeIDs = map[world.Entity]uint64{}] in [Close]: a new,
    empty map takes the place of the old one.  The counter is not
    touched. *)
Definition resetEntityRuntimeIDs (r : Session) : Session := set_entityRuntimeIDs ∅ r.

(** [Session.Close].  The value returned is always the nil error. *)
Definition Close (s : Ptr) : M (option Err) :=
  do r <- deref s;
  call emit (EvControllableClose (c r));
  call emit (EvConnClose (conn r));
  call emit (EvLoaderClose s);
  call emit (EvWorldRemoveEntity (world r) (c r));
  call emit (EvChat (conn r) leftTheGame);
  call closePlayerList s;
  do r1 <- deref s;
  call store s (resetEntityRuntimeIDs r1);
  do r2 <- deref s;
  call match onStop r2 with
      | Some cb => call emit (EvOnStop cb (c r2)); store s (set_onStop None r2)
      | None => ret tt
      end;
  ret None.

(** [Session.RequestClose] *)
Definition RequestClose (s : Ptr) : M unit :=
  do r <- deref s; emit (EvConnClose (conn r)).

(** [s.onStop = onStop].  The assignment goes through no field of the
    session, so it also succeeds on a pointer whose fields are all nil.
    The heap keeps no record for such a pointer, and nothing reads its
    callback: [Close] on it panics at its first call. *)
Definition recordOnStop (s : Ptr) (onStop0 : option Callback) : M unit :=
  fun st => match heap st !! s with
            | Some r => store s (set_onStop onStop0 r) st
            | None => Ok tt st
            end.

(** [Session.Start].  The first call through a field of the session is
    [s.world.AddEntity(s.c)], after the callback was recorded and the
    session joined the slice of open sessions.  [go s.handlePackets()]
    starts the two activities modelled further down ([spawned]); the chat
    line follows it. *)
Definition Start (s : Ptr) (onStop0 : option Callback) : M unit :=
  call recordOnStop s onStop0;
  call initPlayerList s;
  do r <- deref s;
  call emit (EvWorldAddEntity (world r) (c r));
  call emit (EvSendAvailableCommands s);
  emit (EvChat (conn r) joinedTheGame).

(** ** Outbound writes *)

(** [conn.WritePacket]: the environment decides whether the write fails. *)
Definition connWritePacket (k : Conn) (pk : Packet) (result : option Err) : M (option Err) :=
  call emit (EvWritePacket k pk); ret result.

(** [Session.writePacket].  The method has no result. *)
Definition writePacket (s : Ptr) (pk : Packet) (result : option Err) : M unit :=
  if decide (s = Nop) then ret tt
  else do r <- deref s;
       do _ <- connWritePacket (conn r) pk result;
       ret tt.

(** ** The entity runtime ID registry *)








(** ** The packet dispatcher and the two activities of a session *)

(** The result of one pass through the body of a [for] loop. *)
Inductive LoopCtl := Continue | Return.

(** What [conn.ReadPacket] hands back: an error or a packet. *)
Definition ReadResult : Type := Err + Packet.

(** Where the activity running [handlePackets] stands.  The deferred
    function runs when the loop returns and also when it panics; the
    argument of [RSend] and [RClose] is the panic under way, if any. *)
Inductive ReaderPC :=
| RLoop
| RSend (panicking : option string)
| RClose (panicking : option string)
| RDone
| RCrashed.

(** Where the activity running [sendChunks] stands. *)
Inductive SchedPC := SSelect | SReturned | SCrashed.

#[global] Instance ReaderPC_eq_dec : EqDecision ReaderPC.
Proof. solve_decision. Defined.
#[global] Instance SchedPC_eq_dec : EqDecision SchedPC.
Proof. solve_decision. Defined.

(** What happens next is chosen by the environment and the Go scheduler:
    a read on the connection completes, the ticker fires and the load
    answers, the send on the channel meets the receive of the [select],
    or the deferred function proceeds to [Close]. *)
Inductive Action :=
| ARead (r : ReadResult)
| ATick (r : option Err)
| ARendezvous
| ADeferClose.

Definition typeName (pk : Packet) : string :=
  "*packet." +:+
  match pk with
  | Text _ => "Text"
  | CommandRequest _ => "CommandRequest"
  | MovePlayer _ => "MovePlayer"
  | RequestChunkRadius _ => "RequestChunkRadius"
  | BossEvent _ => "BossEvent"
  | OtherPacket ty _ => ty
  end.

Definition fieldsOf (pk : Packet) : string :=
  match pk with
  | Text f | CommandRequest f | MovePlayer f | RequestChunkRadius f
  | BossEvent f | OtherPacket _ f => f
  end.

(** The kinds that [handlePacket] routes to a typed handler. *)
Definition isRouted (pk : Packet) : bool :=
  match pk with
  | Text _ | CommandRequest _ | MovePlayer _ | RequestChunkRadius _ => true
  | BossEvent _ | OtherPacket _ _ => false
  end.

(** What the ticks of [sendChunks] leave in the trace, given the answers
    of the loads. *)
Definition tickEvents (s : Ptr) (lds : list (option Err)) : list Event :=
  flat_map (fun ld => EvLoaderLoad s 4 ::
                      match ld with
                      | Some err => [EvLogError ("error loading chunk: " +:+ err)]
                      | None => []
                      end) lds.

(** [fmt.Sprintf("%+v", pk)] of a pointer to a struct. *)
Definition sprintf_plus_v (pk : Packet) : string := "&{" +:+ fieldsOf pk +:+ "}".

(** The line feed that ends the format of two of the log lines. *)
Definition newline : string := String (Ascii.ascii_of_nat 10) EmptyString.

(** [x[1:]] panics on the empty string. *)
Definition sliceFrom1 (x : string) : M string :=
  match x with
  | EmptyString => panic "runtime error: slice bounds out of range [1:0]"
  | String _ t => ret t
  end.

Section Dispatcher.

(** The four typed handlers are defined in files of the package that are
    not part of the sources at hand.  They are parameters here: each
    one reads and writes some part [HS] of the program state and
    answers with an error or with none. *)
Context {HS : Type}.
Variable handleText : Ptr -> string -> HS -> HS * option Err.
Variable handleCommandRequest : Ptr -> string -> HS -> HS * option Err.
Variable handleMovePlayer : Ptr -> string -> HS -> HS * option Err.
Variable handleRequestChunkRadius : Ptr -> string -> HS -> HS * option Err.
(** [conn.RemoteAddr()], rendered. *)
Variable remoteAddr : Conn -> string.

(** [Session.handlePacket] *)
Definition handlePacket (s : Ptr) (pk : Packet) (h : HS) : M (HS * option Err) :=
  match pk with
  | Text f => ret (handleText s f h)
  | CommandRequest f => ret (handleCommandRequest s f h)
  | MovePlayer f => ret (handleMovePlayer s f h)
  | RequestChunkRadius f => ret (handleRequestChunkRadius s f h)
  | BossEvent _ => ret (h, None)
  | OtherPacket _ _ =>
      do r <- deref s;
      do txt <- sliceFrom1 (sprintf_plus_v pk);
      call emit (EvLogDebug ("unhandled packet " +:+ typeName pk +:+ txt
                             +:+ " from " +:+ remoteAddr (conn r) +:+ newline));
      ret (h, None)
  end.

(** The body of the [for] loop of [handlePackets], given what the read
    on [s.conn] returned. *)
Definition handlePackets_body (s : Ptr) (rd : ReadResult) (h : HS) : M (HS * LoopCtl) :=
  do _ <- deref s;
  match rd with
  | inl _ => ret (h, Return)
  | inr pk =>
      do x <- handlePacket s pk h;
      match snd x with
      | Some err =>
          do r <- deref s;
          call emit (EvLogError ("error processing packet from "
                                 +:+ remoteAddr (conn r) +:+ ": " +:+ err
                                 +:+ newline));
          ret (fst x, Return)
      | None => ret (fst x, Continue)
      end
  end.

(** The body of the [for] loop of [sendChunks] in the ticker case, given
    what [Load(4)] returned.  Both branches go round the loop again. *)
Definition sendChunks_tick (s : Ptr) (ld : option Err) : M LoopCtl :=
  do _ <- deref s;
  call emit (EvLoaderLoad s 4);
  match ld with
  | Some err => call emit (EvLogError ("error loading chunk: " +:+ err)); ret Continue
  | None => ret Continue
  end.

(** The two activities of one session, the package state and the state
    of the handlers. *)
Record Sys := mkSys {
  gstate : State;
  hstate : HS;
  reader : ReaderPC;
  sched : SchedPC
}.

(** The state right after [go s.handlePackets()]: the read loop runs and
    has started [sendChunks]. *)
Definition spawned (st : State) (h : HS) : Sys :=
  {| gstate := st; hstate := h; reader := RLoop; sched := SSelect |}.

Definition readStep (s : Ptr) (rd : ReadResult) (y : Sys) : Sys :=
  match handlePackets_body s rd (hstate y) (gstate y) with
  | Ok (h, Continue) st =>
      {| gstate := st; hstate := h; reader := RLoop; sched := sched y |}
  | Ok (h, Return) st =>
      {| gstate := st; hstate := h; reader := RSend None; sched := sched y |}
  | Panic msg st =>
      {| gstate := st; hstate := hstate y; reader := RSend (Some msg); sched := sched y |}
  end.

Definition tickStep (s : Ptr) (ld : option Err) (y : Sys) : Sys :=
  match sendChunks_tick s ld (gstate y) with
  | Ok Continue st =>
      {| gstate := st; hstate := hstate y; reader := reader y; sched := SSelect |}
  | Ok Return st =>
      {| gstate := st; hstate := hstate y; reader := reader y; sched := SReturned |}
  | Panic _ st =>
      {| gstate := st; hstate := hstate y; reader := reader y; sched := SCrashed |}
  end.

(** [c <- struct{}{}] in the deferred function meets [<-closeChan] in
    the [select]: the channel has no buffer, so both happen at once.
    The scheduler returns, the deferred function goes on to [Close]. *)
Definition rendezvousStep (p : option string) (y : Sys) : Sys :=
  {| gstate := gstate y; hstate := hstate y; reader := RClose p; sched := SReturned |}.

(** [_ = s.Close()] in the deferred function; a panic that was under
    way goes on once the deferred function is over. *)
Definition closeStep (s : Ptr) (p : option string) (y : Sys) : Sys :=
  match Close s (gstate y), p with
  | Ok _ st, None =>
      {| gstate := st; hstate := hstate y; reader := RDone; sched := sched y |}
  | Ok _ st, Some _ =>
      {| gstate := st; hstate := hstate y; reader := RCrashed; sched := sched y |}
  | Panic _ st, _ =>
      {| gstate := st; hstate := hstate y; reader := RCrashed; sched := sched y |}
  end.

(** One step of the session's activities; [None] when the action cannot
    happen in the state.  A crashed activity takes the program down. *)
Definition step (s : Ptr) (a : Action) (y : Sys) : option Sys :=
  match a, reader y, sched y with
  | _, RCrashed, _ | _, _, SCrashed => None
  | ARead rd, RLoop, _ => Some (readStep s rd y)
  | ATick ld, _, SSelect => Some (tickStep s ld y)
  | ARendezvous, RSend p, SSelect => Some (rendezvousStep p y)
  | ADeferClose, RClose p, _ => Some (closeStep s p y)
  | _, _, _ => None
  end.

(** A read error or a handler error occurs on this read. *)
Definition failsAt (s : Ptr) (rd : ReadResult) (h : HS) (st : State) : bool :=
  match rd with
  | inl _ => true
  | inr pk =>
      match handlePacket s pk h st with
      | Ok (_, Some _) _ => true
      | _ => false
      end
  end.

Fixpoint steps (s : Ptr) (acts : list Action) (y : Sys) : option Sys :=
  match acts with
  | [] => Some y
  | a :: rest =>
      match step s a y with
      | Some y' => steps s rest y'
      | None => None
      end
  end.

(** The activities as they stand for a session built by [New] while no
    activity has crashed: the scheduler is in its [select] exactly as
    long as the rendezvous has not happened. *)
Definition Healthy (s : Ptr) (y : Sys) : Prop :=
  is_Some (heap (gstate y) !! s) ∧
  match reader y with
  | RLoop | RSend None => sched y = SSelect
  | RClose None | RDone | RCrashed => sched y = SReturned
  | RSend (Some _) | RClose (Some _) => False
  end.

End Dispatcher.

(** ** Auxiliary notions used by the statements *)

(** Sessions joining the presence directory one after the other. *)
Fixpoint joinAll (l : list Ptr) : M unit :=
  match l with
  | [] => ret tt
  | s :: rest => call initPlayerList s; joinAll rest
  end.

(** The calls [Close] makes before it reaches [closePlayerList]. *)
Definition closeEvents (s : Ptr) (r : Session) : list Event :=
  [EvControllableClose (c r); EvConnClose (conn r); EvLoaderClose s;
   EvWorldRemoveEntity (world r) (c r); EvChat (conn r) leftTheGame].

(** The call of the stop callback at the end of [Close]. *)
Definition stopEvents (r : Session) : list Event :=
  match onStop r with Some cb => [EvOnStop cb (c r)] | None => [] end.

Definition isOnStop (e : Event) : bool :=
  match e with EvOnStop _ _ => true | _ => false end.

Definition isLoad (e : Event) : bool :=
  match e with EvLoaderLoad _ _ => true | _ => false end.

(** The calls that [Close] makes. *)
Definition isCloseCall (e : Event) : bool :=
  match e with
  | EvControllableClose _ | EvConnClose _ | EvLoaderClose _
  | EvWorldRemoveEntity _ _ | EvOnStop _ _ => true
  | EvChat _ msg => bool_decide (msg = leftTheGame)
  | _ => false
  end.

Definition isLog (e : Event) : bool :=
  match e with EvLogError _ | EvLogDebug _ => true | _ => false end.

(** Has the deferred function of [handlePackets] called [Close]? *)
Definition closeBegun (pc : ReaderPC) : bool :=
  match pc with RDone | RCrashed => true | _ => false end.

(** How often the stop callback was called. *)
Definition countOnStop (tr : list Event) : nat := length (List.filter isOnStop tr).

(** The presence directory as the joins of an empty directory leave it:
    every session of the slice lists exactly the sessions of the slice,
    and a session outside of it lists nobody. *)
Definition FullMesh (st : State) : Prop :=
  (∀ r, r ∈ sessions st -> playerList st r = list_to_set (sessions st)) ∧
  (∀ r, r ∉ sessions st -> playerList st r = ∅).


(** An instance of the handler parameters to run the model on: a handler
    that refuses a message without fields and counts the ones it took. *)
Definition countingHandler (s : Ptr) (fields : string) (n : nat) : nat * option Err :=
  match fields with
  | EmptyString => (n, Some "empty message")
  | String _ _ => (S n, None)
  end.

Definition plainAddr (k : Conn) : string := "client".

(** A session built by [New] on the empty package state and started
    without a stop callback. *)
Definition startedAlone : State :=
  stateOf (Start 2 None (stateOf (New 7 8 9 16 1 emptyState))).

(** Three sessions that joined an empty directory one after the other. *)
Definition threeJoined : State := stateOf (joinAll [2; 3; 5]%positive emptyState).

(** A run of the two activities of that session: a tick whose load fails,
    a chat message that is taken, a movement update that is refused, and
    then the rendezvous and the deferred [Close]. *)
Definition sampleReads : list Action :=
  [ATick (Some "world closed"); ARead (inr (Text "hi")); ARead (inr (MovePlayer ""))].

Definition afterReads : Sys :=
  default (spawned startedAlone 0%nat)
    (steps countingHandler countingHandler countingHandler countingHandler plainAddr
       2 sampleReads (spawned startedAlone 0%nat)).

Definition afterClose : Sys :=
  default (spawned startedAlone 0%nat)
    (steps countingHandler countingHandler countingHandler countingHandler plainAddr
       2 (sampleReads ++ [ARendezvous; ADeferClose]) (spawned startedAlone 0%nat)).

(** ** Sequences of calls *)

(** [writePacket] called for one packet after the other; each packet
    comes with the answer the connection gives to its write. *)
Fixpoint writeAll (s : Ptr) (pks : list (Packet * option Err)) : M unit :=
  match pks with
  | [] => ret tt
  | x :: rest => call writePacket s (fst x) (snd x); writeAll s rest
  end.

(** [Close] called [n] times in sequence. *)
Fixpoint closeTimes (n : nat) (s : Ptr) : M unit :=
  match n with
  | O => ret tt
  | S n' => do _ <- Close s; closeTimes n' s
  end.

(** The record of a session after [Close] has returned. *)
Definition closedSession (r : Session) : Session :=
  set_onStop None (resetEntityRuntimeIDs r).

(** What [Start] leaves in the trace. *)
Definition startEvents (s : Ptr) (r : Session) : list Event :=
  [EvWorldAddEntity (world r) (c r); EvSendAvailableCommands s;
   EvChat (conn r) joinedTheGame].

(** The reads of a run, in the order they were made, and the number of
    its ticks. *)
Definition readsOf (acts : list Action) : list ReadResult :=
  flat_map (fun a => match a with ARead rd => [rd] | _ => [] end) acts.

Definition ticksOf (acts : list Action) : nat :=
  length (List.filter (fun a => match a with ATick _ => true | _ => false end) acts).

Definition countLoads (tr : list Event) : nat := length (List.filter isLoad tr).

(** The package state with a longer trace. *)
Definition withTrace (st : State) (evs : list Event) : State :=
  {| heap := heap st; sessions := sessions st; playerLists := playerLists st;
     trace := trace st ++ evs |}.

Section DispatchOrder.

Context {HS : Type}.
Variable handleText : Ptr -> string -> HS -> HS * option Err.
Variable handleCommandRequest : Ptr -> string -> HS -> HS * option Err.
Variable handleMovePlayer : Ptr -> string -> HS -> HS * option Err.
Variable handleRequestChunkRadius : Ptr -> string -> HS -> HS * option Err.

(** The state of the handlers after the packet went through the [switch]
    of [handlePacket]. *)
Definition dispatched (s : Ptr) (pk : Packet) (h : HS) : HS :=
  match pk with
  | Text f => fst (handleText s f h)
  | CommandRequest f => fst (handleCommandRequest s f h)
  | MovePlayer f => fst (handleMovePlayer s f h)
  | RequestChunkRadius f => fst (handleRequestChunkRadius s f h)
  | BossEvent _ | OtherPacket _ _ => h
  end.

(** The error, if any, with which the handler of the packet's kind
    answers; a kind that has no handler gives none. *)
Definition dispatchError (s : Ptr) (pk : Packet) (h : HS) : option Err :=
  match pk with
  | Text f => snd (handleText s f h)
  | CommandRequest f => snd (handleCommandRequest s f h)
  | MovePlayer f => snd (handleMovePlayer s f h)
  | RequestChunkRadius f => snd (handleRequestChunkRadius s f h)
  | BossEvent _ | OtherPacket _ _ => None
  end.

(** The read failed, or the handler the packet goes to answers with an
    error. *)
Definition readFails (s : Ptr) (rd : ReadResult) (h : HS) : bool :=
  match rd with
  | inl _ => true
  | inr pk => match dispatchError s pk h with Some _ => true | None => false end
  end.

(** The state of the handlers after the packets of the reads went
    through it one after the other, first read first. *)
Definition dispatchedAll (s : Ptr) (rds : list ReadResult) (h : HS) : HS :=
  fold_left (fun h rd => match rd with
                         | inr pk => dispatched s pk h
                         | inl _ => h
                         end) rds h.

End DispatchOrder.

(** The session of the sample started with a stop callback, and the
    sample run of its activities to the end. *)
Definition startedWithCallback : State :=
  stateOf (Start 2 (Some 4%positive) (stateOf (New 7 8 9 16 1 emptyState))).

Definition closedRun : Sys :=
  default (spawned startedWithCallback 0%nat)
    (steps countingHandler countingHandler countingHandler countingHandler plainAddr
       2 (sampleReads ++ [ARendezvous; ADeferClose]) (spawned startedWithCallback 0%nat)).

(** ** Calls from outside the two activities *)

(** [Close] is an exported method.  Besides the deferred function of the
    read loop, any other activity of the program may call it on the
    session, at any moment while the program runs.  A call is taken as
    one step here: calls of [Close] that overlap in time, and a second
    call of [Start], which would start a second read loop and a second
    scheduler on the same session, are not part of these runs. *)
Inductive OpenAction :=
| Own (a : Action)
| ExternalClose.

Section OpenRuns.

Context {HS : Type}.
Variable handleText : Ptr -> string -> HS -> HS * option Err.
Variable handleCommandRequest : Ptr -> string -> HS -> HS * option Err.
Variable handleMovePlayer : Ptr -> string -> HS -> HS * option Err.
Variable handleRequestChunkRadius : Ptr -> string -> HS -> HS * option Err.
Variable remoteAddr : Conn -> string.

(** [s.Close()] called by another activity: the two activities of the
    session stand where they stood.  A panic in that call takes the
    program down like any other. *)
Definition externalCloseStep (s : Ptr) (y : Sys (HS := HS)) : Sys :=
  match Close s (gstate y) with
  | Ok _ st =>
      {| gstate := st; hstate := hstate y; reader := reader y; sched := sched y |}
  | Panic _ st =>
      {| gstate := st; hstate := hstate y; reader := RCrashed; sched := SCrashed |}
  end.

(** One step of a run in which [Close] may also be called from outside. *)
Definition openStep (s : Ptr) (a : OpenAction) (y : Sys) : option Sys :=
  match a with
  | Own a' =>
      step handleText handleCommandRequest handleMovePlayer
           handleRequestChunkRadius remoteAddr s a' y
  | ExternalClose =>
      match reader y, sched y with
      | RCrashed, _ | _, SCrashed => None
      | _, _ => Some (externalCloseStep s y)
      end
  end.

Fixpoint openSteps (s : Ptr) (acts : list OpenAction) (y : Sys) : option Sys :=
  match acts with
  | [] => Some y
  | a :: rest =>
      match openStep s a y with
      | Some y' => openSteps s rest y'
      | None => None
      end
  end.

(** How the activities of a session built by [New] stand in such a run,
    as long as the program has not crashed. *)
Definition OpenHealthy (s : Ptr) (y : Sys (HS := HS)) : Prop :=
  is_Some (heap (gstate y) !! s) ∧
  match reader y with
  | RLoop | RSend None => sched y = SSelect
  | RClose None | RDone => sched y = SReturned
  | RSend (Some _) | RClose (Some _) => False
  | RCrashed => True
  end.

End OpenRuns.

(** How the stop callback of a session stands in a run that began with
    the record [r0] and [n0] calls of stop callbacks in the trace: either
    it is still recorded and has not been called, or it has been cleared
    by a [Close] that called it. *)
Definition CallbackOnce (s : Ptr) (r0 : Session) (n0 : nat) (st : State) : Prop :=
  ∃ r, heap st !! s = Some r ∧ c r = c r0 ∧ conn r = conn r0 ∧ world r = world r0
    ∧ ((onStop r = onStop r0 ∧ countOnStop (trace st) = n0)
       ∨ (onStop r = None
          ∧ countOnStop (trace st)
            = (n0 + match onStop r0 with Some _ => 1 | None => 0 end)%nat)).

(** Two sessions built by [New], both started, the second with a stop
    callback. *)
Definition twoStarted : State :=
  stateOf (Start 3 (Some 4%positive)
             (stateOf (Start 2 None
                (stateOf (New 7 8 9 16 1 (stateOf (New 7 8 9 16 1 emptyState))))))).

(** A run of the session of the sample in which [Close] is called from
    outside while the read loop runs: a tick, the call of [Close], another
    tick whose load fails, and the read that fails. *)
Definition openSample : list OpenAction :=
  [Own (ATick None); ExternalClose; Own (ATick (Some "world closed"));
   Own (ARead (inl "EOF"))].

Definition afterOpenSample : Sys :=
  default (spawned startedWithCallback 0%nat)
    (openSteps countingHandler countingHandler countingHandler countingHandler
       plainAddr 2 openSample (spawned startedWithCallback 0%nat)).

(** * Properties *)

Set Warnings "-clear-no-such-hyp".

(** ** The presence directory and the lifecycle *)

Lemma playerList_add recv other st st' :
  addToPlayerList recv other st = Ok tt st' ->
  heap st' = heap st ∧ sessions st' = sessions st ∧ trace st' = trace st ∧
  ∀ r, playerList st' r =
       if decide (r = recv) then {[other]} ∪ playerList st r else playerList st r.
Proof.
  unfold addToPlayerList. intros [= <-]. cbn. repeat split.
  intros r. unfold playerList at 1. cbn.
  destruct (decide (r = recv)) as [->|Hne].
  - by rewrite lookup_total_insert_eq.
  - by rewrite lookup_total_insert_ne.
Qed.

Lemma closePlayerList_loop_ok s rng : ∀ n st,
  ∃ st', closePlayerList_loop s rng n st = Ok (n ++ filter (λ x, x ≠ s) rng) st'
    ∧ heap st' = heap st ∧ sessions st' = sessions st ∧ trace st' = trace st
    ∧ ∀ r, playerList st' r =
           if decide (r ∈ rng) then playerList st r ∖ {[s]} else playerList st r.
Proof.
  induction rng as [|x rng IH]; intros n st.
  - exists st. cbn. rewrite app_nil_r. repeat split; done.
  - cbn [closePlayerList_loop]. unfold bind at 1. cbn [removeFromPlayerList].
    match goal with |- context [closePlayerList_loop s rng ?n' ?st1] =>
      destruct (IH n' st1) as (st' & Heq & Hh & Hs & Ht & Hp) end.
    exists st'. rewrite Heq. cbn in Hh, Hs, Ht. repeat split; try done.
    + f_equal. rewrite filter_cons. destruct (decide (x ≠ s)); [by rewrite <- app_assoc|done].
    + intros r. rewrite Hp. unfold playerList. cbn.
      destruct (decide (r = x)) as [->|Hne];
        [rewrite lookup_total_insert_eq | rewrite lookup_total_insert_ne by done];
        repeat case_decide; set_solver.
Qed.

Lemma playerList_remove recv other st st' :
  removeFromPlayerList recv other st = Ok tt st' ->
  heap st' = heap st ∧ sessions st' = sessions st ∧ trace st' = trace st ∧
  ∀ r, playerList st' r =
       if decide (r = recv) then playerList st r ∖ {[other]} else playerList st r.
Proof.
  unfold removeFromPlayerList. intros [= <-]. cbn. repeat split.
  intros r. unfold playerList at 1. cbn.
  destruct (decide (r = recv)) as [->|Hne].
  - by rewrite lookup_total_insert_eq.
  - by rewrite lookup_total_insert_ne.
Qed.

Lemma initPlayerList_loop_ok s rng : ∀ st,
  ∃ st', initPlayerList_loop s rng st = Ok tt st'
    ∧ heap st' = heap st ∧ sessions st' = sessions st ∧ trace st' = trace st
    ∧ ∀ r, playerList st' r =
           playerList st r
           ∪ (if decide (r ∈ rng) then {[s]} else ∅)
           ∪ (if decide (r = s) then list_to_set rng else ∅).
Proof.
  induction rng as [|x rng IH]; intros st.
  - exists st. cbn. repeat split; try done.
    intros r. rewrite decide_False by apply not_elem_of_nil. case_decide; set_solver.
  - cbn [initPlayerList_loop]. unfold bind at 1. cbn [addToPlayerList].
    unfold bind at 1. cbn [addToPlayerList].
    match goal with |- context [initPlayerList_loop s rng ?st1] =>
      destruct (IH st1) as (st' & Heq & Hh & Hs & Ht & Hp) end.
    exists st'. rewrite Heq. cbn in Hh, Hs, Ht. repeat split; try done.
    intros r. rewrite Hp. unfold playerList. cbn.
    destruct (decide (r = s)) as [->|Hs'].
    + rewrite lookup_total_insert_eq.
      destruct (decide (s = x)) as [->|Hx];
        [rewrite lookup_total_insert_eq | rewrite lookup_total_insert_ne by done];
        repeat case_decide; set_solver.
    + rewrite lookup_total_insert_ne by done.
      destruct (decide (r = x)) as [->|Hx];
        [rewrite lookup_total_insert_eq | rewrite lookup_total_insert_ne by done];
        repeat case_decide; set_solver.
Qed.

Lemma initPlayerList_ok s st :
  ∃ st', initPlayerList s st = Ok tt st'
    ∧ heap st' = heap st ∧ sessions st' = sessions st ++ [s] ∧ trace st' = trace st
    ∧ ∀ r, playerList st' r =
           playerList st r
           ∪ (if decide (r ∈ sessions st ++ [s]) then {[s]} else ∅)
           ∪ (if decide (r = s) then list_to_set (sessions st ++ [s]) else ∅).
Proof.
  unfold initPlayerList, bind. cbn [setSessions].
  match goal with |- context [initPlayerList_loop s ?l ?st1] =>
    destruct (initPlayerList_loop_ok s l st1) as (st' & Heq & Hh & Hs & Ht & Hp) end.
  exists st'. rewrite Heq. repeat split; done.
Qed.

Lemma closePlayerList_ok s st :
  sessions st ≠ [] ->
  ∃ st', closePlayerList s st = Ok tt st'
    ∧ heap st' = heap st ∧ sessions st' = filter (λ x, x ≠ s) (sessions st)
    ∧ trace st' = trace st
    ∧ ∀ r, playerList st' r =
           if decide (r ∈ sessions st) then playerList st r ∖ {[s]} else playerList st r.
Proof.
  intros Hne. unfold closePlayerList, bind, makeSlice.
  destruct (Z.ltb_spec (Z.of_nat (length (sessions st)) - 1) 0) as [Hlt|_].
  { destruct (sessions st); [done|cbn in Hlt; lia]. }
  cbn [ret].
  destruct (closePlayerList_loop_ok s (sessions st) [] st) as (st' & Heq & Hh & Hs & Ht & Hp).
  rewrite Heq. cbn. eexists. repeat split; done.
Qed.

Lemma closePlayerList_empty s st :
  sessions st = [] -> closePlayerList s st = Panic "runtime error: makeslice: cap out of range" st.
Proof. intros H. unfold closePlayerList, bind, makeSlice. by rewrite H. Qed.

Lemma Close_ok s r st :
  heap st !! s = Some r -> sessions st ≠ [] ->
  ∃ st', Close s st = Ok None st'
    ∧ heap st' = <[s := set_onStop None (resetEntityRuntimeIDs r)]> (heap st)
    ∧ sessions st' = filter (λ x, x ≠ s) (sessions st)
    ∧ trace st' = trace st ++ closeEvents s r ++ stopEvents r
    ∧ ∀ p, playerList st' p =
           if decide (p ∈ sessions st) then playerList st p ∖ {[s]} else playerList st p.
Proof.
  intros Hr Hne. unfold Close, resetEntityRuntimeIDs.
  unfold bind at 1. unfold deref at 1. rewrite Hr.
  do 5 (unfold bind at 1; cbn [emit heap sessions playerLists trace]).
  unfold bind at 1.
  match goal with |- context [closePlayerList s ?st1] =>
    destruct (closePlayerList_ok s st1) as (st' & Heq & Hh & Hs & Ht & Hp); [done|] end.
  rewrite Heq. cbn in Hh, Hs, Ht.
  unfold bind at 1. unfold deref at 1. rewrite Hh, Hr.
  unfold bind at 1. cbn [store heap sessions playerLists trace].
  unfold bind at 1. unfold deref at 1. cbn [heap]. rewrite lookup_insert_eq.
  unfold bind at 1. cbn [onStop set_entityRuntimeIDs].
  unfold stopEvents. destruct (onStop r) as [cb|] eqn:Hos.
  - unfold bind at 1. cbn. eexists. split; [reflexivity|]. cbn.
    rewrite Hh, Hs, Ht, insert_insert_eq. repeat rewrite <- app_assoc. repeat split; try done.
  - cbn. eexists. split; [reflexivity|]. cbn.
    rewrite Hh, Hs, Ht. repeat rewrite <- app_assoc. repeat split; try done.
    f_equal. destruct r; cbn in *; by subst.
Qed.

Lemma Close_empty s r st :
  heap st !! s = Some r -> sessions st = [] ->
  Close s st = Panic "runtime error: makeslice: cap out of range"
     {| heap := heap st; sessions := []; playerLists := playerLists st;
        trace := trace st ++ closeEvents s r |}.
Proof.
  intros Hr He. unfold Close.
  unfold bind at 1. unfold deref at 1. rewrite Hr.
  do 5 (unfold bind at 1; cbn [emit heap sessions playerLists trace]).
  unfold bind at 1. rewrite closePlayerList_empty by done.
  cbn. rewrite He. repeat rewrite <- app_assoc. done.
Qed.

Lemma initPlayerList_FullMesh s st st' :
  FullMesh st -> s ∉ sessions st -> initPlayerList s st = Ok tt st' -> FullMesh st'.
Proof.
  intros [Hin Hout] Hs Heq.
  destruct (initPlayerList_ok s st) as (st2 & Heq2 & _ & Hs2 & _ & Hp).
  rewrite Heq in Heq2. injection Heq2 as <-.
  split; intros r Hr; rewrite Hp, Hs2 in *.
  - apply elem_of_app in Hr as [Hr|Hr%list_elem_of_singleton].
    + rewrite (Hin r Hr). repeat case_decide; set_solver.
    + subst r. rewrite (Hout s Hs). repeat case_decide; set_solver.
  - rewrite (Hout r) by set_solver. repeat case_decide; set_solver.
Qed.

Lemma joinAll_FullMesh l : ∀ st,
  FullMesh st -> NoDup (sessions st ++ l) ->
  ∃ st', joinAll l st = Ok tt st' ∧ sessions st' = sessions st ++ l ∧ FullMesh st'.
Proof.
  induction l as [|s l IH]; intros st Hm Hnd.
  - exists st. cbn. by rewrite app_nil_r.
  - cbn [joinAll]. unfold bind.
    destruct (initPlayerList_ok s st) as (st1 & Heq & _ & Hs1 & _ & _).
    rewrite Heq.
    apply NoDup_app in Hnd as (Hnd1 & Hdisj & Hnd2).
    assert (s ∉ sessions st) as Hs by (intros Hin; apply (Hdisj s Hin); left).
    destruct (IH st1) as (st' & Heq' & Hs' & Hm').
    + by eapply initPlayerList_FullMesh.
    + rewrite Hs1. apply NoDup_app. split; [|split].
      * apply NoDup_app. split; [done|]. split; [|apply NoDup_singleton].
        intros x Hx ->%list_elem_of_singleton. done.
      * apply NoDup_cons in Hnd2 as [Hnin _].
        intros x [Hx| ->%list_elem_of_singleton]%elem_of_app Hxl; [|done].
        apply (Hdisj x Hx). by right.
      * by apply NoDup_cons in Hnd2 as [_ ?].
    + exists st'. rewrite Heq', Hs', Hs1, <- app_assoc. done.
Qed.

(** C3.  Joining appends to the slice of open sessions and introduces the
    new session and every session of the slice, itself included, to each
    other: after the [N] distinct sessions of [l] have joined an empty
    directory, the slice is [l] in the order of joining and the presence
    list of every one of them holds exactly the [N] sessions of [l]. *)
Theorem join_full_mesh (l : list Ptr) (st0 : State) :
  NoDup l -> sessions st0 = [] -> (∀ r, playerList st0 r = ∅) ->
  ∃ st, joinAll l st0 = Ok tt st
    ∧ sessions st = l
    ∧ ∀ s, s ∈ l ->
        playerList st s = list_to_set l ∧ size (playerList st s) = length l.
Proof.
  intros Hnd Hs0 Hp0.
  destruct (joinAll_FullMesh l st0) as (st & Heq & Hs & [Hin _]).
  - split; intros r Hr; [by rewrite Hs0 in Hr; apply elem_of_nil in Hr|apply Hp0].
  - by rewrite Hs0.
  - rewrite Hs0 in Hs. cbn in Hs. exists st. repeat split; try done.
    + rewrite Hin, Hs; [done|by rewrite Hs].
    + rewrite Hin, Hs by (by rewrite Hs). by apply size_list_to_set.
Qed.

(** Three sessions joining the empty directory. *)
Lemma join_full_mesh_witness :
  ∃ st, joinAll [2; 3; 5]%positive emptyState = Ok tt st
    ∧ sessions st = [2; 3; 5]%positive
    ∧ ∀ s, s ∈ [2; 3; 5]%positive ->
        playerList st s = list_to_set [2; 3; 5]%positive
        ∧ size (playerList st s) = length [2; 3; 5]%positive.
Proof.
  apply (join_full_mesh [2; 3; 5]%positive emptyState).
  - repeat constructor; set_solver.
  - reflexivity.
  - intros r. reflexivity.
Defined.

(** C4.  When a session of the directory leaves, [closePlayerList] builds
    the new slice from the old one without the departing session and puts
    it in place of the old one: the slice has exactly one element fewer,
    the element that went is the departing session, and the departing
    session is in the presence list of none of the remaining sessions. *)
Theorem leave_removes_departing (s : Ptr) (st : State) :
  NoDup (sessions st) -> s ∈ sessions st ->
  ∃ st', closePlayerList s st = Ok tt st'
    ∧ sessions st' = filter (λ x, x ≠ s) (sessions st)
    ∧ S (length (sessions st')) = length (sessions st)
    ∧ (s ∉ sessions st')
    ∧ (∀ r, r ∈ sessions st' ↔ r ∈ sessions st ∧ r ≠ s)
    ∧ sessions st ≡ₚ (s :: sessions st')
    ∧ (∀ r, r ∈ sessions st' -> playerList st' r = playerList st r ∖ {[s]})
    ∧ (∀ r, r ∈ sessions st' -> s ∉ playerList st' r).
Proof.
  intros Hnd Hs.
  destruct (closePlayerList_ok s st) as (st' & Heq & _ & Hs' & _ & Hp).
  { intros E. rewrite E in Hs. by apply elem_of_nil in Hs. }
  exists st'. split; [done|]. split; [done|].
  assert (∀ r, r ∈ sessions st' ↔ r ∈ sessions st ∧ r ≠ s) as Hiff.
  { intros r. rewrite Hs', list_elem_of_filter. tauto. }
  assert (sessions st ≡ₚ (s :: sessions st')) as Hperm.
  { apply NoDup_Permutation; [done| |].
    - apply NoDup_cons. split; [rewrite Hiff; tauto|]. rewrite Hs'. by apply NoDup_filter.
    - intros x. rewrite elem_of_cons, Hiff. destruct (decide (x = s)); subst; tauto. }
  split; [|split; [|split; [done|split; [done|split]]]].
  - apply Permutation_length in Hperm. cbn in Hperm. lia.
  - rewrite Hiff. tauto.
  - intros r Hr. rewrite Hp. apply Hiff in Hr as [Hr _]. by rewrite decide_True.
  - intros r Hr. rewrite Hp. apply Hiff in Hr as [Hr _]. rewrite decide_True by done. set_solver.
Qed.

Lemma freshPtr_spec st : freshPtr st ≠ Nop ∧ heap st !! freshPtr st = None.
Proof.
  unfold freshPtr.
  pose proof (is_fresh ({[Nop]} ∪ dom (heap st))) as Hf.
  split.
  - intros E. apply Hf. rewrite E. set_solver.
  - apply not_elem_of_dom. set_solver.
Qed.

Lemma New_ok c0 k w m lg st :
  New c0 k w m lg st =
  Ok (freshPtr st)
     {| heap := <[freshPtr st := newSession (freshPtr st) c0 k w m lg]> (heap st);
        sessions := sessions st; playerLists := playerLists st; trace := trace st |}.
Proof. reflexivity. Qed.

Lemma Start_ok s r cb st :
  heap st !! s = Some r ->
  ∃ st', Start s cb st = Ok tt st'
    ∧ heap st' = <[s := set_onStop cb r]> (heap st)
    ∧ sessions st' = sessions st ++ [s]
    ∧ trace st' = trace st ++ [EvWorldAddEntity (world r) (c r);
                               EvSendAvailableCommands s;
                               EvChat (conn r) joinedTheGame].
Proof.
  intros Hr. unfold Start.
  unfold bind at 1. unfold recordOnStop. rewrite Hr. cbn [store].
  unfold bind at 1.
  match goal with |- context [initPlayerList s ?st1] =>
    destruct (initPlayerList_ok s st1) as (st' & Heq & Hh & Hs & Ht & _) end.
  rewrite Heq. cbn in Hh, Hs, Ht.
  unfold bind at 1. unfold deref at 1. rewrite Hh, lookup_insert_eq.
  unfold bind, emit. cbn. eexists. split; [reflexivity|]. cbn.
  rewrite Hh, Hs, Ht. repeat rewrite <- app_assoc. done.
Qed.

(** On a pointer without a record [Start] gets as far as the slice of
    open sessions and panics at the call through the nil world. *)
Lemma Start_nil_fields s cb st :
  heap st !! s = None ->
  ∃ st', Start s cb st
         = Panic "runtime error: invalid memory address or nil pointer dereference" st'
    ∧ sessions st' = sessions st ++ [s] ∧ heap st' = heap st ∧ trace st' = trace st.
Proof.
  intros Hr. unfold Start.
  unfold bind at 1. unfold recordOnStop. rewrite Hr.
  unfold bind at 1.
  destruct (initPlayerList_ok s st) as (st' & Heq & Hh & Hs & Ht & _).
  rewrite Heq. unfold bind at 1. unfold deref at 1. rewrite Hh, Hr.
  exists st'. done.
Qed.

Lemma countOnStop_app tr1 tr2 :
  countOnStop (tr1 ++ tr2) = (countOnStop tr1 + countOnStop tr2)%nat.
Proof. unfold countOnStop. by rewrite List.filter_app, length_app. Qed.

(** C10.  When the slice of open sessions is empty, [closePlayerList]
    panics on the negative capacity it asks for, and [Close] does not
    complete: on a session built by [New] it panics after the calls that
    precede [closePlayerList], with the registry and the stop callback of
    the session untouched. *)
Theorem Close_panics_on_empty_directory (s : Ptr) (st : State) :
  sessions st = [] ->
  closePlayerList s st = Panic "runtime error: makeslice: cap out of range" st
  ∧ isOk (Close s st) = false
  ∧ ∀ r, heap st !! s = Some r ->
      Close s st = Panic "runtime error: makeslice: cap out of range"
        {| heap := heap st; sessions := []; playerLists := playerLists st;
           trace := trace st ++ closeEvents s r |}.
Proof.
  intros He. split; [by apply closePlayerList_empty|]. split.
  - destruct (heap st !! s) as [r|] eqn:Hr.
    + by rewrite (Close_empty s r st).
    + unfold Close, bind, deref. by rewrite Hr.
  - intros r Hr. by apply Close_empty.
Qed.

(** A session that was built but never started: the directory is empty. *)
Lemma Close_panics_on_empty_directory_witness :
  let st := stateOf (New 7 8 9 16 1 emptyState) in
  closePlayerList 2 st = Panic "runtime error: makeslice: cap out of range" st
  ∧ isOk (Close 2 st) = false
  ∧ ∀ r, heap st !! 2%positive = Some r ->
      Close 2 st = Panic "runtime error: makeslice: cap out of range"
        {| heap := heap st; sessions := []; playerLists := playerLists st;
           trace := trace st ++ closeEvents 2 r |}.
Proof.
  apply (Close_panics_on_empty_directory 2 (stateOf (New 7 8 9 16 1 emptyState))).
  reflexivity.
Defined.

(** The first session built on the empty package state. *)
Example New_on_empty :
  ∃ st, New 7 8 9 16 1 emptyState = Ok 2%positive st
    ∧ heap st !! 2%positive = Some (newSession 2 7 8 9 16 1)
    ∧ sessions st = [].
Proof. eexists. split; [reflexivity|]. split; [|reflexivity]. vm_compute. reflexivity. Qed.

(** C1, evaluated where it fails.  A session is built on the empty package
    state, started with a stop callback and closed twice in sequence.  The
    first [Close] returns and has called the callback once.  The second
    [Close] does not return: the slice of open sessions is empty by then
    and [closePlayerList] panics on the negative capacity.  The callback
    has been called once in all. *)
Theorem Close_twice_sole_session (c0 : Entity) (k : Conn) (w : WorldRef) (m : Z)
    (lg : Logger) (cb : Callback) :
  ∃ s st1 st2 st3 st4,
    New c0 k w m lg emptyState = Ok s st1
    ∧ Start s (Some cb) st1 = Ok tt st2
    ∧ Close s st2 = Ok None st3
    ∧ countOnStop (trace st3) = 1%nat
    ∧ Close s st3 = Panic "runtime error: makeslice: cap out of range" st4
    ∧ countOnStop (trace st4) = 1%nat.
Proof.
  set (s := freshPtr emptyState).
  set (r0 := newSession s c0 k w m lg).
  set (st1 := {| heap := <[s := r0]> (heap emptyState); sessions := [];
                 playerLists := ∅; trace := [] |}).
  assert (heap st1 !! s = Some r0) as H1 by apply lookup_insert_eq.
  destruct (Start_ok s r0 (Some cb) st1 H1) as (st2 & E2 & Hh2 & Hs2 & Ht2).
  assert (heap st2 !! s = Some (set_onStop (Some cb) r0)) as H2
    by (rewrite Hh2; apply lookup_insert_eq).
  destruct (Close_ok s _ st2 H2) as (st3 & E3 & Hh3 & Hs3 & Ht3 & _).
  { rewrite Hs2. cbn. done. }
  assert (sessions st3 = []) as He3.
  { rewrite Hs3, Hs2. cbn. rewrite decide_False; [done|]. intros H; by apply H. }
  assert (countOnStop (trace st3) = 1%nat) as Hc3.
  { rewrite Ht3, Ht2. reflexivity. }
  exists s, st1, st2, st3. eexists.
  split; [apply New_ok|]. split; [done|]. split; [done|]. split; [done|].
  split.
  - apply Close_empty; [|done]. rewrite Hh3. apply lookup_insert_eq.
  - cbn [trace]. rewrite countOnStop_app, Hc3. reflexivity.
Qed.












(** The end of the lifetime of the map, at a concrete session: after
    [New], [Start] and [Close] the map of the session holds nothing, the
    entry of its own controllable included. *)
Lemma self_handle_gone_after_Close :
  ∃ s st1 st2 st3 r,
    New 7 8 9 16 1 emptyState = Ok s st1
    ∧ Start s None st1 = Ok tt st2
    ∧ Close s st2 = Ok None st3
    ∧ heap st3 !! s = Some r
    ∧ c r = 7%positive
    ∧ entityRuntimeIDs r !! c r = None
    ∧ entityRuntimeIDs r !! c r ≠ Some selfEntityRuntimeID.
Proof.
  eexists _, _, _, _, _.
  split; [vm_compute; reflexivity|].
  split; [vm_compute; reflexivity|].
  split; [vm_compute; reflexivity|].
  split; [vm_compute; reflexivity|].
  split; [reflexivity|]. split; [reflexivity|]. discriminate.
Qed.

(** C9.  [writePacket] on the no-op session, or on a session built by
    [New]: the call returns without an error and without a panic.  On the
    no-op session nothing changes, so the connection is not touched.  On
    any other session the packet is written to the connection of the
    session, and whether that write failed makes no difference to the
    outcome. *)
Theorem writePacket_guarded (s : Ptr) (pk : Packet) (result : option Err) (st : State) :
  s = Nop ∨ is_Some (heap st !! s) ->
  ∃ st', writePacket s pk result st = Ok tt st'
    ∧ (s = Nop -> st' = st)
    ∧ (s ≠ Nop -> ∀ r, heap st !! s = Some r ->
         st' = {| heap := heap st; sessions := sessions st;
                  playerLists := playerLists st;
                  trace := trace st ++ [EvWritePacket (conn r) pk] |})
    ∧ (∀ result', writePacket s pk result' st = Ok tt st').
Proof.
  intros Hs. unfold writePacket.
  destruct (decide (s = Nop)) as [->|Hne].
  - exists st. repeat split; done.
  - destruct Hs as [?|[r Hr]]; [done|].
    unfold bind, deref. rewrite Hr. cbn. eexists. split; [reflexivity|].
    split; [done|]. split; [|done].
    intros _ r' Hr'. congruence.
Qed.

(** A failing write to the no-op session. *)
Lemma writePacket_guarded_witness :
  ∃ st', writePacket Nop (Text "hello") (Some "broken pipe"%string) emptyState = Ok tt st'
    ∧ (Nop = Nop -> st' = emptyState)
    ∧ (Nop ≠ Nop -> ∀ r, heap emptyState !! Nop = Some r ->
         st' = {| heap := heap emptyState; sessions := sessions emptyState;
                  playerLists := playerLists emptyState;
                  trace := trace emptyState ++ [EvWritePacket (conn r) (Text "hello")] |})
    ∧ (∀ result', writePacket Nop (Text "hello") result' emptyState = Ok tt st').
Proof.
  apply (writePacket_guarded Nop (Text "hello") (Some "broken pipe"%string) emptyState).
  left. reflexivity.
Defined.

Lemma Close_trace s st :
  ∃ evs, trace (stateOf (Close s st)) = trace st ++ evs
    ∧ Forall (λ e, isLoad e = false) evs.
Proof.
  destruct (heap st !! s) as [r|] eqn:Hr.
  - destruct (decide (sessions st = [])) as [He|Hne].
    + rewrite (Close_empty s r st Hr He). cbn. eexists. split; [done|].
      repeat constructor.
    + destruct (Close_ok s r st Hr Hne) as (st' & E & _ & _ & Ht & _).
      rewrite E. cbn. eexists. split; [done|].
      apply Forall_app. split; [repeat constructor|].
      unfold stopEvents. destruct (onStop r); repeat constructor.
  - unfold Close, bind, deref. rewrite Hr. cbn. exists []. by rewrite app_nil_r.
Qed.

Lemma Close_keeps_session s st :
  is_Some (heap st !! s) -> is_Some (heap (stateOf (Close s st)) !! s).
Proof.
  intros [r Hr].
  destruct (decide (sessions st = [])) as [He|Hne].
  - rewrite (Close_empty s r st Hr He). cbn. by exists r.
  - destruct (Close_ok s r st Hr Hne) as (st' & E & Hh & _).
    rewrite E. cbn. rewrite Hh, lookup_insert_eq. eauto.
Qed.

Lemma sendChunks_tick_ok s r ld st :
  heap st !! s = Some r ->
  sendChunks_tick s ld st =
  Ok Continue {| heap := heap st; sessions := sessions st;
                 playerLists := playerLists st;
                 trace := trace st ++ tickEvents s [ld] |}.
Proof.
  intros Hr. unfold sendChunks_tick, bind, deref. rewrite Hr.
  destruct ld; cbn; by rewrite <- ?app_assoc.
Qed.

Lemma sendChunks_tick_trace s ld st :
  ∃ evs, trace (stateOf (sendChunks_tick s ld st)) = trace st ++ evs
    ∧ Forall (λ e, isCloseCall e = false) evs
    ∧ heap (stateOf (sendChunks_tick s ld st)) = heap st.
Proof.
  destruct (heap st !! s) as [r|] eqn:Hr.
  - rewrite (sendChunks_tick_ok s r ld st Hr). cbn. eexists. split; [done|].
    split; [|done]. destruct ld; repeat constructor.
  - unfold sendChunks_tick, bind, deref. rewrite Hr. cbn. exists [].
    by rewrite app_nil_r.
Qed.

Lemma isLog_not_closeCall e : isLog e = true -> isCloseCall e = false.
Proof. by destruct e. Qed.

Lemma tickEvents_cons s ld lds :
  tickEvents s (ld :: lds) = tickEvents s [ld] ++ tickEvents s lds.
Proof. unfold tickEvents. cbn. by rewrite app_nil_r. Qed.

(** ** The dispatcher and the activities *)

Section DispatcherFacts.

Context {HS : Type}.
Variable handleText : Ptr -> string -> HS -> HS * option Err.
Variable handleCommandRequest : Ptr -> string -> HS -> HS * option Err.
Variable handleMovePlayer : Ptr -> string -> HS -> HS * option Err.
Variable handleRequestChunkRadius : Ptr -> string -> HS -> HS * option Err.
Variable remoteAddr : Conn -> string.

Local Abbreviation handlePacket' :=
  (handlePacket handleText handleCommandRequest handleMovePlayer
                handleRequestChunkRadius remoteAddr).
Local Abbreviation body' :=
  (handlePackets_body handleText handleCommandRequest handleMovePlayer
                      handleRequestChunkRadius remoteAddr).
Local Abbreviation step' :=
  (step handleText handleCommandRequest handleMovePlayer
        handleRequestChunkRadius remoteAddr).
Local Abbreviation steps' :=
  (steps handleText handleCommandRequest handleMovePlayer
         handleRequestChunkRadius remoteAddr).
Local Abbreviation readStep' :=
  (readStep handleText handleCommandRequest handleMovePlayer
            handleRequestChunkRadius remoteAddr).
Local Abbreviation failsAt' :=
  (failsAt handleText handleCommandRequest handleMovePlayer
           handleRequestChunkRadius remoteAddr).
Local Abbreviation dispatched' :=
  (dispatched handleText handleCommandRequest handleMovePlayer
              handleRequestChunkRadius).
Local Abbreviation dispatchError' :=
  (dispatchError handleText handleCommandRequest handleMovePlayer
                 handleRequestChunkRadius).
Local Abbreviation readFails' :=
  (readFails handleText handleCommandRequest handleMovePlayer
             handleRequestChunkRadius).

(** What [handlePacket] leaves of the package state: at most one more
    line in the log. *)
Lemma handlePacket_ok s r pk h st :
  heap st !! s = Some r ->
  ∃ h' e st', handlePacket' s pk h st = Ok (h', e) st'
    ∧ heap st' = heap st ∧ sessions st' = sessions st
    ∧ playerLists st' = playerLists st
    ∧ (isRouted pk = true -> st' = st)
    ∧ (isRouted pk = false -> h' = h ∧ e = None)
    ∧ match pk with
      | OtherPacket _ _ => ∃ msg, trace st' = trace st ++ [EvLogDebug msg]
      | _ => st' = st
      end.
Proof.
  intros Hr. destruct pk; cbn [handlePacket isRouted].
  1-4: (unfold ret; eexists _, _, _; split;
        [apply f_equal2; [apply surjective_pairing|reflexivity]|];
        repeat split; done).
  - eexists _, _, _. split; [reflexivity|]. repeat split; done.
  - unfold bind, deref. rewrite Hr. cbn.
    eexists _, _, _. split; [reflexivity|]. cbn. repeat split; try done. eauto.
Qed.

(** C7.  A message whose kind is none of text, command request, movement
    update and chunk-radius request makes [handlePacket] return no error
    and leaves the state of the handlers alone.  The ignorable
    administrative kind changes nothing at all; any other kind adds one
    line to the debug log and nothing else. *)
Theorem handlePacket_unhandled (s : Ptr) (r : Session) (pk : Packet) (h : HS)
    (st : State) :
  heap st !! s = Some r -> isRouted pk = false ->
  ∃ st', handlePacket' s pk h st = Ok (h, None) st'
    ∧ heap st' = heap st ∧ sessions st' = sessions st
    ∧ playerLists st' = playerLists st
    ∧ match pk with
      | BossEvent _ => st' = st
      | _ => trace st' = trace st ++
               [EvLogDebug ("unhandled packet " +:+ typeName pk
                            +:+ ("{" +:+ fieldsOf pk +:+ "}")
                            +:+ " from " +:+ remoteAddr (conn r) +:+ newline)]
      end.
Proof.
  intros Hr Hk. destruct pk; try discriminate Hk; cbn [handlePacket].
  - exists st. repeat split; done.
  - unfold bind, deref. rewrite Hr. cbn.
    eexists. split; [reflexivity|]. cbn. repeat split; done.
Qed.

Lemma handlePacket_trace s pk h st :
  ∃ evs, trace (stateOf (handlePacket' s pk h st)) = trace st ++ evs
    ∧ Forall (λ e, isLog e = true) evs
    ∧ heap (stateOf (handlePacket' s pk h st)) = heap st.
Proof.
  destruct pk; cbn [handlePacket]; try (exists []; cbn; by rewrite app_nil_r).
  unfold bind, deref. destruct (heap st !! s) as [r|]; cbn.
  - eexists. split; [done|]. split; [|done]. repeat constructor.
  - exists []. by rewrite app_nil_r.
Qed.

(** One pass through the read loop, for a session built by [New]. *)
Lemma handlePackets_body_ok s r rd h st :
  heap st !! s = Some r ->
  ∃ h' ctl st', body' s rd h st = Ok (h', ctl) st'
    ∧ heap st' = heap st
    ∧ ctl = (if failsAt' s rd h st then Return else Continue)
    ∧ match rd with
      | inl _ => h' = h ∧ st' = st
      | inr pk =>
          ∃ e st1, handlePacket' s pk h st = Ok (h', e) st1
            ∧ match e with
              | Some err =>
                  st' = {| heap := heap st1; sessions := sessions st1;
                           playerLists := playerLists st1;
                           trace := trace st1 ++
                             [EvLogError ("error processing packet from "
                                +:+ remoteAddr (conn r) +:+ ": " +:+ err
                                +:+ newline)] |}
              | None => st' = st1
              end
      end.
Proof.
  intros Hr. unfold handlePackets_body. unfold bind at 1. unfold deref at 1.
  rewrite Hr. destruct rd as [e|pk]; cbn [failsAt].
  - eexists _, _, _. split; [reflexivity|]. repeat split; done.
  - destruct (handlePacket_ok s r pk h st Hr)
      as (h' & e & st1 & E & Hh & _).
    unfold bind at 1. rewrite E. cbn [snd fst].
    destruct e as [err|].
    + unfold bind, deref. rewrite Hh, Hr. cbn.
      eexists _, _, _. split; [reflexivity|]. cbn. repeat split; try done.
      eexists _, _. split; [reflexivity|]. done.
    + eexists _, _, _. split; [reflexivity|]. repeat split; try done.
      eexists _, _. split; [reflexivity|]. done.
Qed.

Lemma handlePackets_body_trace s rd h st :
  ∃ evs, trace (stateOf (body' s rd h st)) = trace st ++ evs
    ∧ Forall (λ e, isLog e = true) evs.
Proof.
  unfold handlePackets_body. unfold bind at 1. unfold deref at 1.
  destruct (heap st !! s) as [r0|]; [|exists []; cbn; by rewrite app_nil_r].
  destruct rd as [e|pk].
  - exists []. cbn. by rewrite app_nil_r.
  - destruct (handlePacket_trace s pk h st) as (evs & Ht & Hl & Hh).
    unfold bind at 1. destruct (handlePacket' s pk h st) as [[h' e] st1|msg st1]; cbn in *.
    + destruct e as [err|]; cbn.
      * unfold bind, deref. destruct (heap st1 !! s); cbn.
        -- rewrite Ht, <- app_assoc. eexists. split; [done|].
           apply Forall_app. split; [done|]. repeat constructor.
        -- eauto.
      * eauto.
    + eauto.
Qed.

Lemma steps_app s acts1 acts2 (y : Sys) :
  steps' s (acts1 ++ acts2) y =
  match steps' s acts1 y with
  | Some y1 => steps' s acts2 y1
  | None => None
  end.
Proof.
  revert y. induction acts1 as [|a acts1 IH]; intros y; cbn; [done|].
  destruct (step' s a y); [apply IH|done].
Qed.

Lemma readStep_spec s r rd (y : Sys) :
  heap (gstate y) !! s = Some r ->
  ∃ h' ctl st', body' s rd (hstate y) (gstate y) = Ok (h', ctl) st'
    ∧ heap st' = heap (gstate y)
    ∧ ctl = (if failsAt' s rd (hstate y) (gstate y) then Return else Continue)
    ∧ readStep' s rd y =
      {| gstate := st'; hstate := h';
         reader := if failsAt' s rd (hstate y) (gstate y) then RSend None else RLoop;
         sched := sched y |}.
Proof.
  intros Hr.
  destruct (handlePackets_body_ok s r rd (hstate y) (gstate y) Hr)
    as (h' & ctl & st' & E & Hh & Hctl & _).
  exists h', ctl, st'. repeat split; try done.
  unfold readStep. rewrite E, Hctl.
  by destruct (failsAt' s rd (hstate y) (gstate y)).
Qed.

Lemma step_Healthy s a (y y' : Sys) :
  Healthy s y -> step' s a y = Some y' -> Healthy s y'.
Proof.
  intros [[r Hr] Hpc] Hst. unfold step in Hst.
  destruct a as [rd|ld| |], (reader y) as [|[?|]|[?|]| |] eqn:Hrd,
    (sched y) as [| |] eqn:Hsc; try done; injection Hst as <-.
  - destruct (readStep_spec s r rd y Hr) as (h' & ctl & st' & _ & Hh & _ & ->).
    split; cbn; [rewrite Hh; eauto|].
    by destruct (failsAt' s rd (hstate y) (gstate y)).
  - unfold tickStep. rewrite (sendChunks_tick_ok s r ld _ Hr). split; cbn; [eauto|by rewrite Hrd].
  - unfold tickStep. rewrite (sendChunks_tick_ok s r ld _ Hr). split; cbn; [eauto|by rewrite Hrd].
  - split; cbn; [eauto|done].
  - unfold closeStep. pose proof (Close_keeps_session s (gstate y) (ex_intro _ r Hr)) as Hk.
    destruct (Close s (gstate y)); cbn in Hk; split; cbn; done.
Qed.

Lemma steps_Healthy s acts : ∀ (y y' : Sys),
  Healthy s y -> steps' s acts y = Some y' -> Healthy s y'.
Proof.
  induction acts as [|a acts IH]; intros y y' Hy Hst; cbn in Hst.
  - by injection Hst as <-.
  - destruct (step' s a y) as [y1|] eqn:E; [|done].
    eapply IH; [|done]. by eapply step_Healthy.
Qed.

Lemma step_reader_mono s a (y y' : Sys) :
  reader y ≠ RLoop -> step' s a y = Some y' -> reader y' ≠ RLoop.
Proof.
  intros Hne Hst. unfold step in Hst.
  destruct a as [rd|ld| |], (reader y) as [|p|p| |] eqn:Hrd,
    (sched y) as [| |] eqn:Hsc; try done; injection Hst as <-; cbn; try done.
  all: try (unfold tickStep; destruct (sendChunks_tick s ld (gstate y)) as [[|] ?|? ?];
            cbn; by rewrite Hrd).
  all: unfold closeStep; by destruct (Close s (gstate y)), p.
Qed.

Lemma steps_reader_mono s acts : ∀ (y y' : Sys),
  reader y ≠ RLoop -> steps' s acts y = Some y' -> reader y' ≠ RLoop.
Proof.
  induction acts as [|a acts IH]; intros y y' Hy Hst; cbn in Hst.
  - by injection Hst as <-.
  - destruct (step' s a y) as [y1|] eqn:E; [|done].
    eapply IH; [|done]. by eapply step_reader_mono.
Qed.

(** From inside the loop, a step leaves the loop exactly when it is a
    read on which a read error or a handler error occurs. *)
Lemma step_from_loop s a (y y' : Sys) :
  Healthy s y -> reader y = RLoop -> step' s a y = Some y' ->
  (reader y' ≠ RLoop ↔
   ∃ rd, a = ARead rd ∧ failsAt' s rd (hstate y) (gstate y) = true).
Proof.
  intros [[r Hr] Hpc] Hrd Hst. rewrite Hrd in Hpc. unfold step in Hst.
  rewrite Hrd, Hpc in Hst. destruct a as [rd|ld| |]; try done; injection Hst as <-.
  - destruct (readStep_spec s r rd y Hr) as (h' & ctl & st' & _ & _ & _ & ->). cbn.
    destruct (failsAt' s rd (hstate y) (gstate y)) eqn:Hf; split; try done.
    + intros _. eauto.
    + intros (rd' & [= <-] & Hf'). congruence.
  - unfold tickStep. rewrite (sendChunks_tick_ok s r ld _ Hr). cbn. rewrite Hrd.
    split; [done|]. intros (rd & ? & _). done.
Qed.

Lemma loop_exit_iff s acts : ∀ (y0 y : Sys),
  Healthy s y0 -> reader y0 = RLoop -> steps' s acts y0 = Some y ->
  (reader y ≠ RLoop ↔
   ∃ acts1 rd acts2 y1,
     acts = acts1 ++ ARead rd :: acts2
     ∧ steps' s acts1 y0 = Some y1
     ∧ failsAt' s rd (hstate y1) (gstate y1) = true).
Proof.
  induction acts as [|a acts IH]; intros y0 y Hh Hrd Hst; cbn in Hst.
  - injection Hst as <-. split; [done|].
    intros (acts1 & rd & acts2 & y1 & E & _). by destruct acts1.
  - destruct (step' s a y0) as [y1|] eqn:E; [|done].
    pose proof (step_from_loop s a y0 y1 Hh Hrd E) as Hone.
    pose proof (step_Healthy s a y0 y1 Hh E) as Hh1.
    destruct (decide (reader y1 = RLoop)) as [Hl|Hl].
    + rewrite (IH y1 y Hh1 Hl Hst). split.
      * intros (acts1 & rd & acts2 & y2 & -> & Hs1 & Hf).
        exists (a :: acts1), rd, acts2, y2. cbn. rewrite E. done.
      * intros (acts1 & rd & acts2 & y2 & Eq & Hs1 & Hf).
        destruct acts1 as [|a' acts1]; cbn in Eq, Hs1.
        -- injection Eq as -> ->. injection Hs1 as <-.
           exfalso. apply (proj2 Hone); eauto.
        -- injection Eq as <- ->. rewrite E in Hs1. eauto 10.
    + split.
      * intros _. apply Hone in Hl as (rd & -> & Hf).
        exists [], rd, acts, y0. done.
      * intros _. by eapply steps_reader_mono.
Qed.

Lemma spawned_Healthy s r st (h : HS) :
  heap st !! s = Some r -> Healthy s (spawned st h).
Proof. intros Hr. split; cbn; eauto. Qed.

Lemma deferred_runs_Close s (y : Sys) :
  reader y = RSend None -> sched y = SSelect ->
  ∃ y', steps' s [ARendezvous; ADeferClose] y = Some y'
    ∧ gstate y' = stateOf (Close s (gstate y))
    ∧ hstate y' = hstate y
    ∧ reader y' = (if isOk (Close s (gstate y)) then RDone else RCrashed)
    ∧ sched y' = SReturned.
Proof.
  intros Hrd Hsc. cbn [steps]. unfold step. rewrite Hrd, Hsc. cbn.
  unfold closeStep. cbn.
  destruct (Close s (gstate y)); eexists; (split; [reflexivity|]); done.
Qed.

(** For a session built by [New], a read error or a handler error as
    [handlePacket] reports it is one as the typed handlers give it. *)
Lemma failsAt_readFails s r rd (h : HS) st :
  heap st !! s = Some r -> failsAt' s rd h st = readFails' s rd h.
Proof.
  intros Hr. destruct rd as [e|pk]; [done|]. unfold failsAt, readFails.
  destruct pk; cbn [handlePacket dispatchError]; unfold ret.
  1-4: (match goal with |- context [snd ?x] => by destruct x as [h' [err|]] end).
  - done.
  - unfold bind, deref. by rewrite Hr.
Qed.

(** One pass through the read loop, told by the kind of the packet and by
    the answer of the typed handler of that kind. *)
Lemma readStep_by_kind s r rd (y : Sys) :
  heap (gstate y) !! s = Some r ->
  sched (readStep' s rd y) = sched y
  ∧ heap (gstate (readStep' s rd y)) = heap (gstate y)
  ∧ sessions (gstate (readStep' s rd y)) = sessions (gstate y)
  ∧ playerLists (gstate (readStep' s rd y)) = playerLists (gstate y)
  ∧ match rd with
    | inl _ =>
        reader (readStep' s rd y) = RSend None
        ∧ hstate (readStep' s rd y) = hstate y
        ∧ trace (gstate (readStep' s rd y)) = trace (gstate y)
    | inr pk =>
        hstate (readStep' s rd y) = dispatched' s pk (hstate y)
        ∧ match dispatchError' s pk (hstate y) with
          | Some err =>
              reader (readStep' s rd y) = RSend None
              ∧ trace (gstate (readStep' s rd y)) = trace (gstate y) ++
                  [EvLogError ("error processing packet from "
                               +:+ remoteAddr (conn r) +:+ ": " +:+ err
                               +:+ newline)]
          | None =>
              reader (readStep' s rd y) = RLoop
              ∧ trace (gstate (readStep' s rd y)) = trace (gstate y) ++
                  match pk with
                  | OtherPacket _ _ =>
                      [EvLogDebug ("unhandled packet " +:+ typeName pk
                                   +:+ ("{" +:+ fieldsOf pk +:+ "}")
                                   +:+ " from " +:+ remoteAddr (conn r)
                                   +:+ newline)]
                  | _ => []
                  end
          end
    end.
Proof.
  intros Hr.
  unfold readStep, handlePackets_body, handlePacket, bind, deref, ret, emit.
  rewrite Hr. destruct rd as [e|pk]; [cbn; repeat split; done|].
  destruct pk; cbn [dispatched dispatchError].
  1-4: (match goal with |- context [snd ?x] => destruct x as [h' [err|]] end;
        cbn; rewrite ?Hr; cbn; rewrite ?app_nil_r; repeat split; done).
  - cbn. rewrite app_nil_r. repeat split; done.
  - cbn. rewrite ?Hr. cbn. repeat split; done.
Qed.

(** C6.  The read loop of [handlePackets], for a session built by [New].
    While the loop runs, one pass reads one message.  A failed read ends
    the loop.  A message that was read goes to the handler of its kind:
    text to [handleText], a command request to [handleCommandRequest], a
    movement update to [handleMovePlayer], a chunk-radius request to
    [handleRequestChunkRadius], and any other kind to none.  An error of
    that handler is logged and ends the loop; without an error the next
    pass starts.  Once the loop has ended the deferred function signals
    the scheduler and then runs all of [Close], and not before the signal
    was taken.  The loop has ended exactly when a read failed or a
    handler answered with an error on one of the reads so far. *)
Theorem handlePackets_loop (s : Ptr) (r0 : Session) (st0 : State) (h0 : HS)
    (acts : list Action) (y : Sys) :
  heap st0 !! s = Some r0 ->
  steps' s acts (spawned st0 h0) = Some y ->
  (reader y ≠ RLoop ↔
     ∃ acts1 rd acts2 y1,
       acts = acts1 ++ ARead rd :: acts2
       ∧ steps' s acts1 (spawned st0 h0) = Some y1
       ∧ readFails' s rd (hstate y1) = true)
  ∧ (reader y = RLoop ->
       ∀ rd, ∃ y' r,
         heap (gstate y) !! s = Some r
         ∧ step' s (ARead rd) y = Some y'
         ∧ sched y' = sched y
         ∧ heap (gstate y') = heap (gstate y)
         ∧ sessions (gstate y') = sessions (gstate y)
         ∧ playerLists (gstate y') = playerLists (gstate y)
         ∧ match rd with
           | inl _ =>
               reader y' = RSend None
               ∧ hstate y' = hstate y
               ∧ trace (gstate y') = trace (gstate y)
           | inr pk =>
               hstate y' = dispatched' s pk (hstate y)
               ∧ match dispatchError' s pk (hstate y) with
                 | Some err =>
                     reader y' = RSend None
                     ∧ trace (gstate y') = trace (gstate y) ++
                         [EvLogError ("error processing packet from "
                                      +:+ remoteAddr (conn r) +:+ ": " +:+ err
                                      +:+ newline)]
                 | None =>
                     reader y' = RLoop
                     ∧ trace (gstate y') = trace (gstate y) ++
                         match pk with
                         | OtherPacket _ _ =>
                             [EvLogDebug ("unhandled packet " +:+ typeName pk
                                          +:+ ("{" +:+ fieldsOf pk +:+ "}")
                                          +:+ " from " +:+ remoteAddr (conn r)
                                          +:+ newline)]
                         | _ => []
                         end
                 end
           end)
  ∧ (∀ p, reader y = RSend p ->
       p = None
       ∧ step' s ADeferClose y = None
       ∧ ∃ y1 y2,
           step' s ARendezvous y = Some y1
           ∧ reader y1 = RClose None ∧ sched y1 = SReturned
           ∧ gstate y1 = gstate y
           ∧ step' s ADeferClose y1 = Some y2
           ∧ gstate y2 = stateOf (Close s (gstate y))
           ∧ reader y2 = if isOk (Close s (gstate y)) then RDone else RCrashed)
  ∧ (closeBegun (reader y) = true -> reader y ≠ RLoop).
Proof.
  intros Hr0 Hst.
  pose proof (spawned_Healthy s r0 st0 h0 Hr0) as H0.
  pose proof (steps_Healthy s acts _ _ H0 Hst) as Hy.
  split.
  { rewrite (loop_exit_iff s acts (spawned st0 h0) y H0 eq_refl Hst).
    split; intros (acts1 & rd & acts2 & y1 & Ea & E1 & Hf);
      exists acts1, rd, acts2, y1; (split; [done|]); (split; [done|]);
      destruct (steps_Healthy s acts1 _ _ H0 E1) as [[r1 Hr1] _].
    - by rewrite <- (failsAt_readFails s r1 rd (hstate y1) (gstate y1) Hr1).
    - by rewrite (failsAt_readFails s r1 rd (hstate y1) (gstate y1) Hr1). }
  split; [|split].
  - intros Hrd rd. destruct Hy as [[r Hr] Hpc]. rewrite Hrd in Hpc.
    exists (readStep' s rd y), r. split; [done|]. split.
    { unfold step. by rewrite Hrd, Hpc. }
    apply (readStep_by_kind s r rd y Hr).
  - intros p Hrd. destruct Hy as [_ Hpc]. rewrite Hrd in Hpc.
    destruct p as [msg|]; [done|]. split; [done|]. split.
    + unfold step. by rewrite Hrd, Hpc.
    + exists (rendezvousStep None y), (closeStep s None (rendezvousStep None y)).
      split; [unfold step; by rewrite Hrd, Hpc|]. do 3 (split; [done|]).
      split; [done|]. unfold closeStep. cbn.
      destruct (Close s (gstate y)); done.
  - intros Hc Hl. by rewrite Hl in Hc.
Qed.

Lemma steps_ticks s r lds : ∀ (y : Sys),
  heap (gstate y) !! s = Some r -> sched y = SSelect -> reader y ≠ RCrashed ->
  steps' s (map ATick lds) y =
  Some {| gstate := {| heap := heap (gstate y); sessions := sessions (gstate y);
                       playerLists := playerLists (gstate y);
                       trace := trace (gstate y) ++ tickEvents s lds |};
          hstate := hstate y; reader := reader y; sched := SSelect |}.
Proof.
  induction lds as [|ld lds IH]; intros y Hr Hsc Hrd.
  - cbn. rewrite app_nil_r. destruct y as [[] ? ? ?]; cbn in *. by subst.
  - cbn [map steps]. unfold step at 1. rewrite Hsc.
    destruct (reader y) eqn:Hrd'; try done.
    all: cbv beta iota; unfold tickStep; rewrite (sendChunks_tick_ok s r ld _ Hr);
      rewrite IH by (cbn; congruence);
      cbn [gstate hstate reader sched heap sessions playerLists trace];
      rewrite (tickEvents_cons s ld lds), Hrd', <- app_assoc; done.
Qed.

Lemma tickEvents_not_closeCall s lds :
  Forall (λ ev, isCloseCall ev = false) (tickEvents s lds).
Proof.
  induction lds as [|ld lds IH]; [constructor|].
  rewrite tickEvents_cons. apply Forall_app. split; [|done].
  destruct ld; cbn; by repeat constructor.
Qed.

(** C5.  Ticks of the streaming scheduler, whether their load fails or
    not, leave the read loop running and the scheduler in its [select]:
    a failed load adds the load and one line of the error log to the trace
    and nothing else, no call of [Close] among them, and the next tick can
    take place.  A read failure after that does end the session: the
    deferred function meets the scheduler and runs [Close]. *)
Theorem failed_load_keeps_session_open (s : Ptr) (r : Session) (y : Sys)
    (lds : list (option Err)) (e : Err) :
  heap (gstate y) !! s = Some r -> reader y = RLoop -> sched y = SSelect ->
  ∃ y1, steps' s (map ATick lds) y = Some y1
    ∧ reader y1 = RLoop ∧ sched y1 = SSelect ∧ hstate y1 = hstate y
    ∧ heap (gstate y1) = heap (gstate y)
    ∧ sessions (gstate y1) = sessions (gstate y)
    ∧ playerLists (gstate y1) = playerLists (gstate y)
    ∧ trace (gstate y1) = trace (gstate y) ++ tickEvents s lds
    ∧ Forall (λ ev, isCloseCall ev = false) (tickEvents s lds)
    ∧ (∀ ld, ∃ y2, step' s (ATick ld) y1 = Some y2)
    ∧ ∃ y2, steps' s [ARead (inl e); ARendezvous; ADeferClose] y1 = Some y2
        ∧ gstate y2 = stateOf (Close s (gstate y1))
        ∧ closeBegun (reader y2) = true.
Proof.
  intros Hr Hrd Hsc.
  pose proof (steps_ticks s r lds y Hr Hsc) as Hticks.
  rewrite Hrd in Hticks. specialize (Hticks ltac:(done)).
  match type of Hticks with _ = Some ?y' => set (y1 := y') in * end.
  exists y1. split; [done|]. do 7 (split; [done|]).
  split; [|split].
  - apply tickEvents_not_closeCall.
  - intros ld. unfold step. cbn [reader sched y1]. eauto.
  - assert (step' s (ARead (inl e)) y1 =
            Some {| gstate := gstate y1; hstate := hstate y1;
                    reader := RSend None; sched := SSelect |}) as E1.
    { unfold step, readStep, handlePackets_body, bind, deref. cbn. by rewrite Hr. }
    match type of E1 with _ = Some ?y' =>
      destruct (deferred_runs_Close s y' eq_refl eq_refl)
        as (y2 & E & Hg & _ & Hrd2 & _) end.
    exists y2. cbn [steps] in E |- *. rewrite E1. split; [exact E|].
    split; [exact Hg|]. rewrite Hrd2. by destruct (isOk _).
Qed.

End DispatcherFacts.

(** ** The model at work *)

(** Where a repeated [Close] does come back: as long as the slice of
    open sessions is not empty, the second call changes neither the
    session nor the directory and does not call the callback again. *)
Lemma Close_again_with_others s r st st1 :
  heap st !! s = Some r -> Close s st = Ok None st1 -> sessions st1 ≠ [] ->
  ∃ st2, Close s st1 = Ok None st2
    ∧ heap st2 = heap st1 ∧ sessions st2 = sessions st1
    ∧ (∀ p, playerList st2 p = playerList st1 p)
    ∧ countOnStop (trace st2) = countOnStop (trace st1).
Proof.
  intros Hr Hc Hne1.
  destruct (decide (sessions st = [])) as [He|Hne].
  { by rewrite (Close_empty s r st Hr He) in Hc. }
  destruct (Close_ok s r st Hr Hne) as (st1' & E & Hh & Hs & Ht & Hp).
  rewrite E in Hc. injection Hc as ->.
  assert (heap st1 !! s = Some (set_onStop None (resetEntityRuntimeIDs r))) as Hr1
    by (rewrite Hh; apply lookup_insert_eq).
  destruct (Close_ok s _ st1 Hr1 Hne1) as (st2 & E2 & Hh2 & Hs2 & Ht2 & Hp2).
  exists st2. split; [done|]. split; [|split; [|split]].
  - rewrite Hh2. by apply insert_id.
  - rewrite Hs2, Hs. rewrite list_filter_filter. apply list_filter_iff. tauto.
  - intros p. rewrite Hp2. case_decide as Hin; [|done].
    rewrite Hp. rewrite Hs in Hin. apply list_elem_of_filter in Hin as [_ Hin].
    rewrite decide_True by done. set_solver.
  - rewrite Ht2, !countOnStop_app. cbn. lia.
Qed.

(** The second of three sessions leaves. *)
Lemma leave_removes_departing_witness :
  ∃ st', closePlayerList 3 threeJoined = Ok tt st'
    ∧ sessions st' = filter (λ x, x ≠ 3%positive) (sessions threeJoined)
    ∧ S (length (sessions st')) = length (sessions threeJoined)
    ∧ (3%positive ∉ sessions st')
    ∧ (∀ r, r ∈ sessions st' ↔ r ∈ sessions threeJoined ∧ r ≠ 3%positive)
    ∧ sessions threeJoined ≡ₚ (3%positive :: sessions st')
    ∧ (∀ r, r ∈ sessions st' -> playerList st' r = playerList threeJoined r ∖ {[3%positive]})
    ∧ (∀ r, r ∈ sessions st' -> 3%positive ∉ playerList st' r).
Proof.
  apply (leave_removes_departing 3 threeJoined).
  - apply (bool_decide_unpack _). vm_compute. reflexivity.
  - apply (bool_decide_unpack _). vm_compute. reflexivity.
Defined.

(** What is left of the directory then. *)
Example leave_example :
  sessions (stateOf (closePlayerList 3 threeJoined)) = [2; 5]%positive
  ∧ playerList (stateOf (closePlayerList 3 threeJoined)) 2 = {[2; 5]}%positive
  ∧ playerList threeJoined 2 = {[2; 3; 5]}%positive.
Proof. repeat split; apply (bool_decide_unpack _); vm_compute; reflexivity. Qed.

(** The sample run up to the refused movement update. *)
Example afterReads_left_loop :
  reader afterReads = RSend None ∧ sched afterReads = SSelect
  ∧ hstate afterReads = 1%nat
  ∧ trace (gstate afterReads) =
      trace startedAlone ++
      [EvLoaderLoad 2 4; EvLogError "error loading chunk: world closed";
       EvLogError ("error processing packet from client: empty message" +:+ newline)].
Proof. repeat split; vm_compute; reflexivity. Qed.

(** The sample run to its end. *)
Example afterClose_closed :
  reader afterClose = RDone ∧ sched afterClose = SReturned
  ∧ sessions (gstate afterClose) = []
  ∧ trace (gstate afterClose) =
      trace (gstate afterReads) ++
      [EvControllableClose 7; EvConnClose 8; EvLoaderClose 2;
       EvWorldRemoveEntity 9 7; EvChat 8 leftTheGame].
Proof. repeat split; vm_compute; reflexivity. Qed.

(** A login packet reaching the dispatcher of a started session. *)
Lemma handlePacket_unhandled_witness :
  ∃ st', handlePacket countingHandler countingHandler countingHandler countingHandler
           plainAddr 2 (OtherPacket "Login" "Name:x") 0%nat startedAlone
         = Ok (0%nat, None) st'
    ∧ heap st' = heap startedAlone ∧ sessions st' = sessions startedAlone
    ∧ playerLists st' = playerLists startedAlone
    ∧ trace st' = trace startedAlone ++
        [EvLogDebug ("unhandled packet " +:+ typeName (OtherPacket "Login" "Name:x")
                     +:+ ("{" +:+ fieldsOf (OtherPacket "Login" "Name:x") +:+ "}")
                     +:+ " from " +:+ plainAddr (conn (newSession 2 7 8 9 16 1))
                     +:+ newline)].
Proof.
  apply (handlePacket_unhandled countingHandler countingHandler countingHandler
           countingHandler plainAddr 2 (newSession 2 7 8 9 16 1)
           (OtherPacket "Login" "Name:x") 0%nat startedAlone).
  - vm_compute. reflexivity.
  - reflexivity.
Defined.

(** Three ticks, two of them with a failing load. *)
Lemma failed_load_keeps_session_open_witness :
  ∃ y1, steps countingHandler countingHandler countingHandler countingHandler plainAddr
          2 (map ATick [Some "world closed"; None; Some "world closed"])
          (spawned startedAlone 0%nat) = Some y1
    ∧ reader y1 = RLoop ∧ sched y1 = SSelect
    ∧ sessions (gstate y1) = [2%positive].
Proof.
  destruct (failed_load_keeps_session_open countingHandler countingHandler
              countingHandler countingHandler plainAddr 2 (newSession 2 7 8 9 16 1)
              (spawned startedAlone 0%nat)
              [Some "world closed"; None; Some "world closed"] "EOF")
    as (y1 & E & Hrd & Hsc & _ & _ & Hs & _).
  - vm_compute. reflexivity.
  - reflexivity.
  - reflexivity.
  - exists y1. split; [exact E|]. split; [exact Hrd|]. split; [exact Hsc|].
    rewrite Hs. reflexivity.
Defined.

(** The sample run: the loop has ended, on the refused movement update. *)
Lemma handlePackets_loop_witness :
  reader afterReads ≠ RLoop ↔
  ∃ acts1 rd acts2 y1,
    sampleReads = acts1 ++ ARead rd :: acts2
    ∧ steps countingHandler countingHandler countingHandler countingHandler plainAddr
        2 acts1 (spawned startedAlone 0%nat) = Some y1
    ∧ readFails countingHandler countingHandler countingHandler countingHandler
        2 rd (hstate y1) = true.
Proof.
  apply (handlePackets_loop countingHandler countingHandler countingHandler
           countingHandler plainAddr 2 (newSession 2 7 8 9 16 1) startedAlone 0%nat
           sampleReads afterReads).
  - vm_compute. reflexivity.
  - vm_compute. reflexivity.
Defined.

(** * Further properties of the code *)

(** ** Construction and writes *)

Lemma filter_ne_not_in (s : Ptr) (l : list Ptr) :
  s ∉ l -> filter (λ x, x ≠ s) l = l.
Proof.
  induction l as [|a l IH]; intros Hn; [done|].
  apply not_elem_of_cons in Hn as [Hne Hn].
  rewrite filter_cons, decide_True by done. by rewrite IH.
Qed.

Lemma filter_ne_snoc (s : Ptr) (l : list Ptr) :
  filter (λ x, x ≠ s) (l ++ [s]) = filter (λ x, x ≠ s) l.
Proof.
  rewrite filter_app, filter_cons, decide_False, filter_nil, app_nil_r; [done|].
  intros H. by apply H.
Qed.

Lemma filter_ne_absent (s : Ptr) (l : list Ptr) : s ∉ filter (λ x, x ≠ s) l.
Proof. intros [H _]%list_elem_of_filter. by apply H. Qed.

Lemma filter_split_length (s : Ptr) (l : list Ptr) :
  (length (filter (λ x, x ≠ s) l) + length (filter (λ x, x = s) l) = length l)%nat.
Proof.
  induction l as [|a l IH]; [done|].
  rewrite !filter_cons. destruct (decide (a = s)) as [->|Hne].
  - rewrite decide_False by (intros H; by apply H). cbn. lia.
  - rewrite decide_True by done. cbn. lia.
Qed.

(** X1.  Two sessions built one after the other live at two addresses,
    neither of them the no-op session and neither of them in use before.
    Each of them sends its own controllable to the runtime ID 1 and holds
    nothing else: runtime IDs are local to a session.  Building a session
    leaves the sessions that exist, the slice of open sessions and the
    trace as they are. *)
Theorem New_sessions_have_local_ids (c1 c2 : Entity) (k1 k2 : Conn)
    (w1 w2 : WorldRef) (m1 m2 : Z) (lg1 lg2 : Logger) (st : State) :
  ∃ s1 st1 s2 st2 r1 r2,
    New c1 k1 w1 m1 lg1 st = Ok s1 st1
    ∧ New c2 k2 w2 m2 lg2 st1 = Ok s2 st2
    ∧ s1 ≠ s2 ∧ s1 ≠ Nop ∧ s2 ≠ Nop
    ∧ heap st !! s1 = None ∧ heap st !! s2 = None
    ∧ heap st2 !! s1 = Some r1 ∧ heap st2 !! s2 = Some r2
    ∧ entityRuntimeIDs r1 = {[ c1 := 1 ]} ∧ entityRuntimeIDs r2 = {[ c2 := 1 ]}
    ∧ currentEntityRuntimeID r1 = 1 ∧ currentEntityRuntimeID r2 = 1
    ∧ onStop r1 = None ∧ onStop r2 = None
    ∧ (∀ p r, heap st !! p = Some r -> heap st2 !! p = Some r)
    ∧ sessions st2 = sessions st ∧ trace st2 = trace st.
Proof.
  set (s1 := freshPtr st). set (r1 := newSession s1 c1 k1 w1 m1 lg1).
  set (st1 := {| heap := <[s1:=r1]> (heap st); sessions := sessions st;
                 playerLists := playerLists st; trace := trace st |}).
  set (s2 := freshPtr st1). set (r2 := newSession s2 c2 k2 w2 m2 lg2).
  destruct (freshPtr_spec st) as [Hn1 Hf1]. fold s1 in Hn1, Hf1.
  destruct (freshPtr_spec st1) as [Hn2 Hf2]. fold s2 in Hn2, Hf2.
  cbn in Hf2. apply lookup_insert_None in Hf2 as [Hf2 Hne].
  exists s1, st1, s2. eexists. exists r1, r2.
  split; [apply New_ok|]. split; [apply New_ok|].
  cbn. fold s2 r2. repeat split; try done.
  - rewrite lookup_insert_ne by done. apply lookup_insert_eq.
  - apply lookup_insert_eq.
  - intros p r Hp. rewrite !lookup_insert_ne; [done| |]; intros ->; congruence.
Qed.

(** X2.  For a maximum chunk radius that fits an [int32] and is not
    negative, [New] keeps it as it is, sets the current radius to half of
    it, rounded down, and gives the loader that same radius: the current
    radius lies between 0 and the maximum. *)
Theorem New_chunk_radius (c0 : Entity) (k : Conn) (w : WorldRef) (m : Z)
    (lg : Logger) (st : State) :
  0 <= m < 2^31 ->
  ∃ s st' r, New c0 k w m lg st = Ok s st'
    ∧ heap st' !! s = Some r
    ∧ maxChunkRadius r = m
    ∧ chunkRadius r = m / 2
    ∧ 0 <= chunkRadius r <= maxChunkRadius r
    ∧ loaderRadius (chunkLoader r) = chunkRadius r
    ∧ loaderViewer (chunkLoader r) = s
    ∧ loaderWorld (chunkLoader r) = world r.
Proof.
  intros Hm. rewrite New_ok. eexists _, _, _. split; [reflexivity|].
  cbn. rewrite lookup_insert_eq. split; [reflexivity|]. cbn.
  assert (Z.quot m 2 = m / 2) as Hq by (apply Z.quot_div_nonneg; lia).
  assert (0 <= m / 2 <= m) as Hh.
  { split; [apply Z.div_pos; lia|]. apply Z.div_le_upper_bound; lia. }
  assert (∀ z, 0 <= z < 2^31 -> int32 z = z) as Hid.
  { intros z Hz. unfold int32. rewrite Z.mod_small; lia. }
  rewrite Hq, !Hid by lia. repeat split; lia.
Qed.

(** A maximum of sixteen chunks. *)
Lemma New_chunk_radius_witness :
  ∃ s st' r, New 7 8 9 16 1 emptyState = Ok s st'
    ∧ heap st' !! s = Some r
    ∧ maxChunkRadius r = 16
    ∧ chunkRadius r = 16 / 2
    ∧ 0 <= chunkRadius r <= maxChunkRadius r
    ∧ loaderRadius (chunkLoader r) = chunkRadius r
    ∧ loaderViewer (chunkLoader r) = s
    ∧ loaderWorld (chunkLoader r) = world r.
Proof. apply (New_chunk_radius 7 8 9 16 1 emptyState). lia. Defined.

(** Beyond the range of [int32] the conversions wrap around, and the
    radius of the session is no longer the radius of its loader. *)
Example New_chunk_radius_wraps :
  maxChunkRadius (newSession 2 7 8 9 (2^32) 1) = 0
  ∧ chunkRadius (newSession 2 7 8 9 (2^32) 1) = - 2^31
  ∧ loaderRadius (chunkLoader (newSession 2 7 8 9 (2^32) 1)) = 2^31.
Proof. repeat split; reflexivity. Qed.

(** The no-op session takes any number of packets and nothing happens. *)
Lemma writeAll_Nop pks st : writeAll Nop pks st = Ok tt st.
Proof.
  induction pks as [|[pk res] pks IH]; [done|].
  cbn [writeAll fst snd]. unfold bind, writePacket.
  rewrite decide_True by done. apply IH.
Qed.

(** X3.  Packets written to a session built by [New] reach its connection
    one by one, in the order of the calls and whatever the connection
    answers; nothing else changes.  Packets written to the no-op session
    leave the state as it is, the trace included. *)
Theorem writeAll_in_order (s : Ptr) (pks : list (Packet * option Err)) (st : State) :
  s = Nop ∨ is_Some (heap st !! s) ->
  ∃ st', writeAll s pks st = Ok tt st'
    ∧ heap st' = heap st ∧ sessions st' = sessions st
    ∧ playerLists st' = playerLists st
    ∧ (s = Nop -> st' = st)
    ∧ (s ≠ Nop -> ∀ r, heap st !! s = Some r ->
         trace st' = trace st ++ map (λ x, EvWritePacket (conn r) (fst x)) pks).
Proof.
  destruct (decide (s = Nop)) as [->|Hn].
  { intros _. exists st. rewrite writeAll_Nop. repeat split; done. }
  intros [?|[r Hr]]; [done|].
  assert (∃ st', writeAll s pks st = Ok tt st'
            ∧ heap st' = heap st ∧ sessions st' = sessions st
            ∧ playerLists st' = playerLists st
            ∧ trace st' = trace st ++ map (λ x, EvWritePacket (conn r) (fst x)) pks)
    as (st' & E & Hh & Hs & Hp & Ht).
  { revert st Hr. induction pks as [|[pk res] pks IH]; intros st Hr.
    - exists st. cbn. by rewrite app_nil_r.
    - cbn [writeAll fst snd]. unfold bind at 1. unfold writePacket.
      rewrite decide_False by done.
      unfold bind, deref, connWritePacket, emit. rewrite Hr. cbn.
      match goal with |- context [writeAll s pks ?st1] =>
        destruct (IH st1 Hr) as (st' & E & Hh & Hs & Hp & Ht) end.
      cbn in *. exists st'. rewrite E, Ht, <- app_assoc. done. }
  exists st'. do 4 (split; [done|]). split; [done|].
  intros _ r' Hr'. rewrite Hr in Hr'. injection Hr' as <-. done.
Qed.

(** Three packets to the no-op session while a session is open, the
    second write failing. *)
Lemma writeAll_in_order_witness :
  ∃ st', writeAll Nop [(Text "a", None); (Text "b", Some "broken pipe"%string);
                       (BossEvent "", None)] startedAlone = Ok tt st'
    ∧ heap st' = heap startedAlone ∧ sessions st' = sessions startedAlone
    ∧ playerLists st' = playerLists startedAlone
    ∧ (Nop = Nop -> st' = startedAlone)
    ∧ (Nop ≠ Nop -> ∀ r, heap startedAlone !! Nop = Some r ->
         trace st' = trace startedAlone ++
           map (λ x, EvWritePacket (conn r) (fst x))
             [(Text "a", None); (Text "b", Some "broken pipe"%string);
              (BossEvent "", None)]).
Proof.
  apply (writeAll_in_order Nop). left. reflexivity.
Defined.

(** The same three packets to the open session. *)
Example writeAll_to_open_session :
  trace (stateOf (writeAll 2 [(Text "a", None); (Text "b", Some "broken pipe"%string);
                              (BossEvent "", None)] startedAlone))
  = trace startedAlone ++
    [EvWritePacket 8 (Text "a"); EvWritePacket 8 (Text "b");
     EvWritePacket 8 (BossEvent "")].
Proof. vm_compute. reflexivity. Qed.

(** ** Leaving, closing, and closing again *)

(** X4.  [closePlayerList] returns exactly when the slice of open
    sessions is not empty, whether or not the session is in it.  When it
    returns, the new slice is the old one without every occurrence of the
    session, the other sessions in their old order; a slice the session
    was not in is left as it was.  Neither the sessions nor the trace
    change. *)
Theorem closePlayerList_any_session (s : Ptr) (st : State) :
  (isOk (closePlayerList s st) = true ↔ sessions st ≠ [])
  ∧ ∀ st', closePlayerList s st = Ok tt st' ->
      sessions st' = filter (λ x, x ≠ s) (sessions st)
      ∧ (length (sessions st') + length (filter (λ x, x = s) (sessions st))
         = length (sessions st))%nat
      ∧ (s ∉ sessions st')
      ∧ (s ∉ sessions st -> sessions st' = sessions st)
      ∧ heap st' = heap st ∧ trace st' = trace st.
Proof.
  destruct (decide (sessions st = [])) as [He|Hne].
  - rewrite (closePlayerList_empty s st He). split; [|done]. cbn. split; done.
  - destruct (closePlayerList_ok s st Hne) as (st1 & E & Hh & Hs & Ht & _).
    rewrite E. split; [done|]. intros st' [= <-].
    rewrite Hs. split; [done|]. split; [apply filter_split_length|].
    split; [apply filter_ne_absent|]. split; [apply filter_ne_not_in|done].
Qed.

(** X5.  [Close] on a session built by [New] returns exactly when the
    slice of open sessions is not empty.  When it returns, the error is
    nil, the session is in the slice no more, its entity map is empty and
    its stop callback is cleared, while its counter and the records of
    all other sessions are as before.  The calls go out in the order of
    the source, the stop callback last, and the callback is called once
    if one was recorded and not at all otherwise. *)
Theorem Close_contract (s : Ptr) (r : Session) (st : State) :
  heap st !! s = Some r ->
  (isOk (Close s st) = true ↔ sessions st ≠ [])
  ∧ ∀ res st', Close s st = Ok res st' ->
      res = None
      ∧ sessions st' = filter (λ x, x ≠ s) (sessions st)
      ∧ (s ∉ sessions st')
      ∧ heap st' !! s = Some (closedSession r)
      ∧ entityRuntimeIDs (closedSession r) = ∅
      ∧ onStop (closedSession r) = None
      ∧ currentEntityRuntimeID (closedSession r) = currentEntityRuntimeID r
      ∧ (∀ p, p ≠ s -> heap st' !! p = heap st !! p)
      ∧ trace st' = trace st ++ closeEvents s r ++ stopEvents r
      ∧ countOnStop (trace st')
        = (countOnStop (trace st) + match onStop r with Some _ => 1 | None => 0 end)%nat.
Proof.
  intros Hr. destruct (decide (sessions st = [])) as [He|Hne].
  - rewrite (Close_empty s r st Hr He). split; [|done]. cbn. split; done.
  - destruct (Close_ok s r st Hr Hne) as (st1 & E & Hh & Hs & Ht & _).
    rewrite E. split; [done|]. intros res st' [= <- <-].
    split; [done|]. split; [done|]. split; [rewrite Hs; apply filter_ne_absent|].
    split; [rewrite Hh; apply lookup_insert_eq|]. do 3 (split; [done|]).
    split; [intros p Hp; rewrite Hh; by apply lookup_insert_ne|].
    split; [done|]. rewrite Ht, !countOnStop_app. unfold stopEvents.
    destruct (onStop r); cbn; lia.
Qed.

(** The started session of the sample, alone in the directory. *)
Lemma Close_contract_witness :
  isOk (Close 2 startedAlone) = true ↔ sessions startedAlone ≠ [].
Proof.
  apply (Close_contract 2 (newSession 2 7 8 9 16 1) startedAlone).
  vm_compute. reflexivity.
Defined.

(** X6.  [Start] and then [Close], on a session built by [New] that is
    not in the slice of open sessions: both return, the slice is back to
    what it was, and the calls that went out are those of [Start], those
    of [Close] and then the stop callback that [Start] was given, called
    once with the controllable of the session. *)
Theorem Start_then_Close (s : Ptr) (r : Session) (cb : option Callback) (st : State) :
  heap st !! s = Some r -> s ∉ sessions st ->
  ∃ st1 st2,
    Start s cb st = Ok tt st1
    ∧ sessions st1 = sessions st ++ [s]
    ∧ Close s st1 = Ok None st2
    ∧ sessions st2 = sessions st
    ∧ heap st2 = <[s := closedSession r]> (heap st)
    ∧ trace st2 = trace st ++ startEvents s r ++ closeEvents s r
                  ++ match cb with Some f => [EvOnStop f (c r)] | None => [] end.
Proof.
  intros Hr Hs.
  destruct (Start_ok s r cb st Hr) as (st1 & E1 & Hh1 & Hs1 & Ht1).
  assert (heap st1 !! s = Some (set_onStop cb r)) as Hr1
    by (rewrite Hh1; apply lookup_insert_eq).
  destruct (Close_ok s _ st1 Hr1) as (st2 & E2 & Hh2 & Hs2 & Ht2 & _).
  { rewrite Hs1. by destruct (sessions st). }
  exists st1, st2. do 3 (split; [done|]). split; [|split].
  - rewrite Hs2, Hs1, filter_ne_snoc. by apply filter_ne_not_in.
  - rewrite Hh2, Hh1, insert_insert_eq. done.
  - rewrite Ht2, Ht1, <- !app_assoc. done.
Qed.

(** The session of the sample, built and not yet started. *)
Lemma Start_then_Close_witness :
  ∃ st1 st2,
    Start 2 (Some 4%positive) (stateOf (New 7 8 9 16 1 emptyState)) = Ok tt st1
    ∧ sessions st1 = sessions (stateOf (New 7 8 9 16 1 emptyState)) ++ [2%positive]
    ∧ Close 2 st1 = Ok None st2
    ∧ sessions st2 = sessions (stateOf (New 7 8 9 16 1 emptyState))
    ∧ heap st2 = <[2%positive := closedSession (newSession 2 7 8 9 16 1)]>
                   (heap (stateOf (New 7 8 9 16 1 emptyState)))
    ∧ trace st2 = trace (stateOf (New 7 8 9 16 1 emptyState))
                  ++ startEvents 2 (newSession 2 7 8 9 16 1)
                  ++ closeEvents 2 (newSession 2 7 8 9 16 1)
                  ++ [EvOnStop 4 (c (newSession 2 7 8 9 16 1))].
Proof.
  apply (Start_then_Close 2 (newSession 2 7 8 9 16 1) (Some 4%positive)
           (stateOf (New 7 8 9 16 1 emptyState))).
  - vm_compute. reflexivity.
  - apply not_elem_of_nil.
Defined.

(** X7.  [Start] has no guard against a second call.  Started twice, the
    session is in the slice of open sessions twice and the callback of the
    second call has taken the place of the first.  One [Close] then takes
    both entries out of the slice and calls the second callback only. *)
Theorem Start_twice_then_Close (s : Ptr) (r : Session) (cb1 cb2 : option Callback)
    (st : State) :
  heap st !! s = Some r -> s ∉ sessions st ->
  ∃ st1 st2 st3,
    Start s cb1 st = Ok tt st1
    ∧ Start s cb2 st1 = Ok tt st2
    ∧ sessions st2 = sessions st ++ [s; s]
    ∧ heap st2 !! s = Some (set_onStop cb2 r)
    ∧ Close s st2 = Ok None st3
    ∧ sessions st3 = sessions st
    ∧ trace st3 = trace st ++ startEvents s r ++ startEvents s r ++ closeEvents s r
                  ++ match cb2 with Some f => [EvOnStop f (c r)] | None => [] end.
Proof.
  intros Hr Hs.
  destruct (Start_ok s r cb1 st Hr) as (st1 & E1 & Hh1 & Hs1 & Ht1).
  assert (heap st1 !! s = Some (set_onStop cb1 r)) as Hr1
    by (rewrite Hh1; apply lookup_insert_eq).
  destruct (Start_ok s _ cb2 st1 Hr1) as (st2 & E2 & Hh2 & Hs2 & Ht2).
  assert (heap st2 !! s = Some (set_onStop cb2 r)) as Hr2
    by (rewrite Hh2; apply lookup_insert_eq).
  destruct (Close_ok s _ st2 Hr2) as (st3 & E3 & Hh3 & Hs3 & Ht3 & _).
  { rewrite Hs2. by destruct (sessions st1). }
  exists st1, st2, st3. do 2 (split; [done|]).
  split; [by rewrite Hs2, Hs1, <- app_assoc|]. do 2 (split; [done|]). split.
  - rewrite Hs3, Hs2, Hs1, !filter_ne_snoc. by apply filter_ne_not_in.
  - rewrite Ht3, Ht2, Ht1, <- !app_assoc. done.
Qed.

(** The session of the sample started with one callback and then with
    another. *)
Lemma Start_twice_then_Close_witness :
  ∃ st1 st2 st3,
    Start 2 (Some 4%positive) (stateOf (New 7 8 9 16 1 emptyState)) = Ok tt st1
    ∧ Start 2 (Some 6%positive) st1 = Ok tt st2
    ∧ sessions st2 = sessions (stateOf (New 7 8 9 16 1 emptyState)) ++ [2; 2]%positive
    ∧ heap st2 !! 2%positive = Some (set_onStop (Some 6%positive) (newSession 2 7 8 9 16 1))
    ∧ Close 2 st2 = Ok None st3
    ∧ sessions st3 = sessions (stateOf (New 7 8 9 16 1 emptyState))
    ∧ trace st3 = trace (stateOf (New 7 8 9 16 1 emptyState))
                  ++ startEvents 2 (newSession 2 7 8 9 16 1)
                  ++ startEvents 2 (newSession 2 7 8 9 16 1)
                  ++ closeEvents 2 (newSession 2 7 8 9 16 1)
                  ++ [EvOnStop 6 (c (newSession 2 7 8 9 16 1))].
Proof.
  apply (Start_twice_then_Close 2 (newSession 2 7 8 9 16 1) (Some 4%positive)
           (Some 6%positive) (stateOf (New 7 8 9 16 1 emptyState))).
  - vm_compute. reflexivity.
  - apply not_elem_of_nil.
Defined.

Lemma closeTimes_after_first s r n : ∀ st,
  heap st !! s = Some (closedSession r) -> sessions st ≠ [] -> s ∉ sessions st ->
  ∃ st', closeTimes n s st = Ok tt st'
    ∧ heap st' = heap st ∧ sessions st' = sessions st
    ∧ trace st' = trace st ++ concat (replicate n (closeEvents s r)).
Proof.
  induction n as [|n IH]; intros st Hr Hne Hs.
  - exists st. cbn. by rewrite app_nil_r.
  - cbn [closeTimes]. unfold bind.
    destruct (Close_ok s _ st Hr Hne) as (st1 & E & Hh & Hs1 & Ht & _).
    rewrite E.
    assert (heap st1 = heap st) as Hh' by (rewrite Hh; by apply insert_id).
    assert (sessions st1 = sessions st) as Hs' by (rewrite Hs1; by apply filter_ne_not_in).
    destruct (IH st1) as (st' & E' & Hh2 & Hs2 & Ht2); [by rewrite Hh'|by rewrite Hs'..|].
    change (closeEvents s (closedSession r)) with (closeEvents s r) in Ht.
    change (stopEvents (closedSession r)) with (@nil Event) in Ht.
    rewrite app_nil_r in Ht.
    exists st'. rewrite E', Hh2, Hs2, Ht2, Ht, Hh', Hs'. repeat split; try done.
    cbn [replicate concat]. by rewrite <- !app_assoc.
Qed.

Lemma countOnStop_close_calls s r n :
  countOnStop (concat (replicate n (closeEvents s r))) = 0%nat.
Proof.
  induction n as [|n IH]; [done|]. cbn [replicate concat].
  rewrite countOnStop_app, IH. reflexivity.
Qed.

(** X8.  [Close] called again and again while another session stays
    open: every call returns.  After the first call the session, the
    slice of open sessions and the number of calls of the stop callback
    do not change any more, but every further call closes the
    controllable, the connection and the loader once more, removes the
    entity from the world once more and announces the departure once
    more. *)
Theorem Close_repeated (s p : Ptr) (r : Session) (n : nat) (st : State) :
  heap st !! s = Some r -> p ∈ sessions st -> p ≠ s ->
  ∃ st', closeTimes (S n) s st = Ok tt st'
    ∧ heap st' = <[s := closedSession r]> (heap st)
    ∧ sessions st' = filter (λ x, x ≠ s) (sessions st)
    ∧ trace st' = trace st ++ closeEvents s r ++ stopEvents r
                  ++ concat (replicate n (closeEvents s r))
    ∧ countOnStop (trace st')
      = (countOnStop (trace st) + match onStop r with Some _ => 1 | None => 0 end)%nat.
Proof.
  intros Hr Hp Hps. cbn [closeTimes]. unfold bind.
  destruct (Close_ok s r st Hr) as (st1 & E & Hh & Hs & Ht & _).
  { intros He. rewrite He in Hp. by apply elem_of_nil in Hp. }
  rewrite E.
  destruct (closeTimes_after_first s r n st1) as (st' & E' & Hh' & Hs' & Ht').
  - rewrite Hh. apply lookup_insert_eq.
  - intros He. assert (p ∈ sessions st1) as Hin
      by (rewrite Hs; by apply list_elem_of_filter).
    rewrite He in Hin. by apply elem_of_nil in Hin.
  - rewrite Hs. apply filter_ne_absent.
  - exists st'. rewrite E', Hh', Hs', Ht', Hh, Hs, Ht, <- !app_assoc.
    repeat split; try done.
    rewrite !countOnStop_app. unfold stopEvents.
    rewrite countOnStop_close_calls.
    destruct (onStop r); cbn; lia.
Qed.

(** The second of three sessions, closed four times. *)
Lemma Close_repeated_witness :
  let st := stateOf (Start 3 (Some 4%positive)
                       (stateOf (Start 2 None
                          (stateOf (New 7 8 9 16 1
                             (stateOf (New 7 8 9 16 1 emptyState))))))) in
  ∃ st', closeTimes 4 3 st = Ok tt st'
    ∧ sessions st' = [2%positive]
    ∧ countOnStop (trace st') = 1%nat.
Proof.
  intros st.
  destruct (Close_repeated 3 2 (set_onStop (Some 4%positive) (newSession 3 7 8 9 16 1))
              3 st) as (st' & E & _ & Hs & _ & Hc).
  - vm_compute. reflexivity.
  - apply (bool_decide_unpack _). vm_compute. reflexivity.
  - discriminate.
  - exists st'. split; [exact E|]. split; [rewrite Hs; reflexivity|exact Hc].
Defined.

(** ** Runs of the two activities *)

Lemma withTrace_nil st : withTrace st [] = st.
Proof. destruct st. unfold withTrace. cbn. by rewrite app_nil_r. Qed.

Lemma withTrace_app st evs1 evs2 :
  withTrace (withTrace st evs1) evs2 = withTrace st (evs1 ++ evs2).
Proof. unfold withTrace. cbn. by rewrite app_assoc. Qed.

Lemma readsOf_app acts1 acts2 : readsOf (acts1 ++ acts2) = readsOf acts1 ++ readsOf acts2.
Proof. unfold readsOf. apply flat_map_app. Qed.

Lemma ticksOf_app acts1 acts2 : ticksOf (acts1 ++ acts2) = (ticksOf acts1 + ticksOf acts2)%nat.
Proof. unfold ticksOf. by rewrite List.filter_app, length_app. Qed.

Lemma countLoads_app tr1 tr2 : countLoads (tr1 ++ tr2) = (countLoads tr1 + countLoads tr2)%nat.
Proof. unfold countLoads. by rewrite List.filter_app, length_app. Qed.

Lemma countLoads_none tr : Forall (λ e, isLoad e = false) tr -> countLoads tr = 0%nat.
Proof.
  unfold countLoads. induction 1 as [|e tr He _ IH]; [done|].
  cbn. by rewrite He.
Qed.

Lemma countOnStop_none tr :
  Forall (λ e, isLog e = true ∨ ∃ s n, e = EvLoaderLoad s n) tr -> countOnStop tr = 0%nat.
Proof.
  unfold countOnStop. induction 1 as [|e tr He _ IH]; [done|].
  cbn. destruct He as [He|(s & n & ->)]; [by destruct e|done].
Qed.

Section ActivityRuns.

Context {HS : Type}.
Variable handleText : Ptr -> string -> HS -> HS * option Err.
Variable handleCommandRequest : Ptr -> string -> HS -> HS * option Err.
Variable handleMovePlayer : Ptr -> string -> HS -> HS * option Err.
Variable handleRequestChunkRadius : Ptr -> string -> HS -> HS * option Err.
Variable remoteAddr : Conn -> string.

Local Abbreviation handlePacket' :=
  (handlePacket handleText handleCommandRequest handleMovePlayer
                handleRequestChunkRadius remoteAddr).
Local Abbreviation body' :=
  (handlePackets_body handleText handleCommandRequest handleMovePlayer
                      handleRequestChunkRadius remoteAddr).
Local Abbreviation step' :=
  (step handleText handleCommandRequest handleMovePlayer
        handleRequestChunkRadius remoteAddr).
Local Abbreviation steps' :=
  (steps handleText handleCommandRequest handleMovePlayer
         handleRequestChunkRadius remoteAddr).
Local Abbreviation failsAt' :=
  (failsAt handleText handleCommandRequest handleMovePlayer
           handleRequestChunkRadius remoteAddr).
Local Abbreviation dispatched' :=
  (dispatched handleText handleCommandRequest handleMovePlayer
              handleRequestChunkRadius).
Local Abbreviation dispatchedAll' :=
  (dispatchedAll handleText handleCommandRequest handleMovePlayer
                 handleRequestChunkRadius).

(** One pass through the read loop: where the handlers and the package
    state are afterwards. *)
Lemma handlePackets_body_shape s r rd h st :
  heap st !! s = Some r ->
  ∃ ctl logs,
    body' s rd h st =
      Ok (match rd with inr pk => dispatched' s pk h | inl _ => h end, ctl)
         (withTrace st logs)
    ∧ Forall (λ e, isLog e = true) logs.
Proof.
  intros Hr. unfold handlePackets_body. unfold bind at 1. unfold deref at 1.
  rewrite Hr. destruct rd as [e|pk].
  - exists Return, []. rewrite withTrace_nil. split; [done|constructor].
  - destruct pk; cbn [handlePacket dispatched].
    1-4: (unfold bind, ret, deref, emit;
          match goal with |- context [snd ?x] => destruct x as [h' [err|]] end;
          cbn; rewrite ?Hr;
          [exists Return; eexists [_]; split; [reflexivity|repeat constructor]
          |exists Continue, []; rewrite withTrace_nil; split; [done|constructor]]).
    + exists Continue, []. rewrite withTrace_nil. split; [done|constructor].
    + unfold bind, deref, emit, ret. rewrite Hr. cbn.
      exists Continue. eexists [_]. split; [reflexivity|repeat constructor].
Qed.

Lemma dispatchedAll_app s rds1 rds2 (h : HS) :
  dispatchedAll' s (rds1 ++ rds2) h = dispatchedAll' s rds2 (dispatchedAll' s rds1 h).
Proof. unfold dispatchedAll. apply fold_left_app. Qed.


(** The shape of every run of the activities of a session built by
    [New]: up to the call of [Close] the package state only gains loads
    of four chunks and lines of the log, one load per tick, and the
    handlers have seen the packets in the order of the reads; after it
    the state is what [Close] made of that. *)
Lemma run_shape s r0 st0 (h0 : HS) acts (y : Sys) :
  heap st0 !! s = Some r0 ->
  steps' s acts (spawned st0 h0) = Some y ->
  ∃ evs,
    Forall (λ e, isLog e = true ∨ e = EvLoaderLoad s 4) evs
    ∧ countLoads evs = ticksOf acts
    ∧ hstate y = dispatchedAll' s (readsOf acts) h0
    ∧ ((closeBegun (reader y) = false ∧ gstate y = withTrace st0 evs)
       ∨ (sched y = SReturned
          ∧ gstate y = stateOf (Close s (withTrace st0 evs))
          ∧ reader y = if isOk (Close s (withTrace st0 evs)) then RDone else RCrashed)).
Proof.
  intros Hr0. revert y. induction acts as [|a acts IH] using rev_ind; intros y Hst.
  - injection Hst as <-. exists []. cbn. rewrite withTrace_nil.
    split; [constructor|]. repeat split; try done. by left.
  - rewrite steps_app in Hst.
    destruct (steps' s acts (spawned st0 h0)) as [y1|] eqn:E1; [|done].
    pose proof (steps_Healthy _ _ _ _ _ s acts _ _
                  (spawned_Healthy s r0 st0 h0 Hr0) E1) as [_ Hpc].
    destruct (IH y1 eq_refl) as (evs & Hev & Hld & Hh & Hcase).
    cbn in Hst. destruct (step' s a y1) as [y2|] eqn:E2; [|done].
    injection Hst as <-. rewrite readsOf_app, ticksOf_app.
    rewrite dispatchedAll_app, <- Hh. unfold step in E2.
    destruct Hcase as [[Hnb Hg]|(Hsc & Hg & Hrd)].
    + assert (heap (gstate y1) !! s = Some r0) as Hr1 by (by rewrite Hg).
      destruct a as [rd|ld| |], (reader y1) as [|[?|]|[?|]| |] eqn:Hrd,
        (sched y1) as [| |] eqn:Hsc; try done; injection E2 as <-.
      * destruct (handlePackets_body_shape s r0 rd (hstate y1) (gstate y1) Hr1)
          as (ctl & logs & Eb & Hlogs).
        exists (evs ++ logs). unfold readStep. rewrite Eb, Hg, withTrace_app.
        split; [apply Forall_app; split; [done|]; eapply Forall_impl; [exact Hlogs|];
                cbn; by left|].
        rewrite countLoads_app, Hld, (countLoads_none logs)
          by (eapply Forall_impl; [exact Hlogs|]; intros e He; by destruct e).
        split; [cbn; lia|].
        destruct ctl; cbn [hstate gstate reader closeBegun];
          (split; [destruct rd; reflexivity|left; split; reflexivity]).
      * exists (evs ++ tickEvents s [ld]). unfold tickStep.
        rewrite (sendChunks_tick_ok s r0 ld _ Hr1), Hg. cbn [gstate hstate reader sched].
        split; [apply Forall_app; split; [done|]; destruct ld; cbn;
                repeat constructor; by right|].
        rewrite countLoads_app, Hld.
        split; [by destruct ld|]. split; [done|]. left.
        split; [by rewrite Hrd|]. rewrite <- withTrace_app. reflexivity.
      * exists (evs ++ tickEvents s [ld]). unfold tickStep.
        rewrite (sendChunks_tick_ok s r0 ld _ Hr1), Hg. cbn [gstate hstate reader sched].
        split; [apply Forall_app; split; [done|]; destruct ld; cbn;
                repeat constructor; by right|].
        rewrite countLoads_app, Hld.
        split; [by destruct ld|]. split; [done|]. left.
        split; [by rewrite Hrd|]. rewrite <- withTrace_app. reflexivity.
      * exists evs. split; [done|]. split; [cbn; lia|]. split; [done|].
        left. split; [done|exact Hg].
      * exists evs. split; [done|]. split; [cbn; lia|].
        unfold closeStep. rewrite Hg.
        destruct (Close s (withTrace st0 evs)); cbn; (split; [done|]);
          right; rewrite Hsc; done.
    + exfalso. rewrite Hsc in E2.
      destruct (isOk (Close s (withTrace st0 evs))); rewrite Hrd in E2;
        by destruct a.
Qed.

(** X9.  [RequestClose] closes the connection and does nothing else: the
    session stays in the slice of open sessions and its record is as it
    was.  It is the read loop that ends the session: when the next read
    fails, the deferred function meets the scheduler and runs [Close],
    which closes the connection a second time among its calls and takes
    the session out of the slice. *)
Theorem RequestClose_then_read_failure (s : Ptr) (r : Session) (st : State)
    (h : HS) (e : Err) :
  heap st !! s = Some r -> sessions st ≠ [] ->
  RequestClose s st = Ok tt (withTrace st [EvConnClose (conn r)])
  ∧ ∃ y2,
      steps' s [ARead (inl e); ARendezvous; ADeferClose]
        (spawned (withTrace st [EvConnClose (conn r)]) h) = Some y2
      ∧ reader y2 = RDone ∧ sched y2 = SReturned ∧ hstate y2 = h
      ∧ sessions (gstate y2) = filter (λ x, x ≠ s) (sessions st)
      ∧ heap (gstate y2) = <[s := closedSession r]> (heap st)
      ∧ trace (gstate y2) = trace st ++ [EvConnClose (conn r)]
                            ++ closeEvents s r ++ stopEvents r.
Proof.
  intros Hr Hne. split.
  { unfold RequestClose, bind, deref. by rewrite Hr. }
  set (st1 := withTrace st [EvConnClose (conn r)]).
  assert (step' s (ARead (inl e)) (spawned st1 h) =
          Some {| gstate := st1; hstate := h; reader := RSend None; sched := SSelect |})
    as E1.
  { unfold step, readStep, handlePackets_body, bind, deref. cbn. by rewrite Hr. }
  match type of E1 with _ = Some ?y' =>
    destruct (deferred_runs_Close handleText handleCommandRequest handleMovePlayer
                handleRequestChunkRadius remoteAddr s y' eq_refl eq_refl)
      as (y2 & E & Hg & Hh & Hrd & Hsc) end.
  cbn [gstate hstate] in Hg, Hh, Hrd.
  destruct (Close_ok s r st1 Hr Hne) as (st2 & Ec & Hh2 & Hs2 & Ht2 & _).
  rewrite Ec in Hg, Hrd. cbn in Hg, Hrd.
  exists y2. cbn [steps] in E |- *. rewrite E1. split; [exact E|].
  rewrite Hg. do 3 (split; [done|]). split; [done|]. split; [done|].
  rewrite Ht2. cbn. by rewrite <- !app_assoc.
Qed.


(** X13.  When the deferred [Close] of the read loop has returned, the
    session is out of the slice of open sessions, the other sessions of
    the slice are there in their old order, the record of the session is
    the closed one (empty entity map, no callback), the scheduler has
    returned, and neither activity takes another step. *)
Theorem closed_session_is_terminal (s : Ptr) (r0 : Session) (st0 : State) (h0 : HS)
    (acts : list Action) (y : Sys) :
  heap st0 !! s = Some r0 ->
  steps' s acts (spawned st0 h0) = Some y ->
  reader y = RDone ->
  sched y = SReturned
  ∧ (∀ a, step' s a y = None)
  ∧ sessions (gstate y) = filter (λ x, x ≠ s) (sessions st0)
  ∧ (s ∉ sessions (gstate y))
  ∧ heap (gstate y) = <[s := closedSession r0]> (heap st0).
Proof.
  intros Hr0 Hst Hd.
  destruct (run_shape s r0 st0 h0 acts y Hr0 Hst) as (evs & _ & _ & _ & Hcase).
  destruct Hcase as [[Hnb _]|(Hsc & Hg & Hrd)]; [by rewrite Hd in Hnb|].
  assert (sessions (withTrace st0 evs) ≠ []) as Hne.
  { intros He. rewrite (Close_empty s r0 (withTrace st0 evs) Hr0 He) in Hrd.
    cbn in Hrd. congruence. }
  destruct (Close_ok s r0 (withTrace st0 evs) Hr0 Hne) as (st' & E & Hh & Hs & _).
  rewrite E in Hg. cbn in Hg. rewrite Hg, Hs, Hh.
  split; [done|]. split.
  { intros a. unfold step. rewrite Hd, Hsc. by destruct a. }
  split; [done|]. split; [apply filter_ne_absent|]. done.
Qed.

(** X14.  Every tick of the scheduler asks the loader of the session for
    four chunks, once: in a run of the activities of a session built by
    [New] the trace gains as many loads as there were ticks, each of them
    a load of four on this session, also when loads fail. *)
Theorem one_load_of_four_per_tick (s : Ptr) (r0 : Session) (st0 : State) (h0 : HS)
    (acts : list Action) (y : Sys) :
  heap st0 !! s = Some r0 ->
  steps' s acts (spawned st0 h0) = Some y ->
  ∃ added,
    trace (gstate y) = trace st0 ++ added
    ∧ countLoads added = ticksOf acts
    ∧ Forall (λ e, isLoad e = true -> e = EvLoaderLoad s 4) added.
Proof.
  intros Hr0 Hst.
  destruct (run_shape s r0 st0 h0 acts y Hr0 Hst) as (evs & Hev & Hld & _ & Hcase).
  assert (Forall (λ e, isLoad e = true -> e = EvLoaderLoad s 4) evs) as Hev'.
  { eapply Forall_impl; [exact Hev|]. intros e [Hl|He] Hi; [by destruct e|done]. }
  destruct Hcase as [[_ Hg]|(_ & Hg & _)].
  - exists evs. rewrite Hg. done.
  - destruct (Close_trace s (withTrace st0 evs)) as (evs' & Ht & Hnl).
    exists (evs ++ evs'). rewrite Hg, Ht. cbn. rewrite <- app_assoc.
    split; [done|]. rewrite countLoads_app, (countLoads_none evs' Hnl), Hld.
    split; [lia|]. apply Forall_app. split; [done|].
    eapply Forall_impl; [exact Hnl|]. intros e He Hi. congruence.
Qed.

End ActivityRuns.

(** ** The sample run again *)

(** The sample run on the session with a callback. *)
Example closedRun_trace :
  reader closedRun = RDone
  ∧ hstate closedRun = 1%nat
  ∧ sessions (gstate closedRun) = []
  ∧ trace (gstate closedRun) =
      trace startedWithCallback ++
      [EvLoaderLoad 2 4; EvLogError "error loading chunk: world closed";
       EvLogError ("error processing packet from client: empty message" +:+ newline);
       EvControllableClose 7; EvConnClose 8; EvLoaderClose 2;
       EvWorldRemoveEntity 9 7; EvChat 8 leftTheGame; EvOnStop 4 7].
Proof. repeat split; vm_compute; reflexivity. Qed.

(** A request to close the started session, and the read that fails. *)
Lemma RequestClose_then_read_failure_witness :
  RequestClose 2 startedWithCallback
  = Ok tt (withTrace startedWithCallback [EvConnClose 8])
  ∧ ∃ y2,
      steps countingHandler countingHandler countingHandler countingHandler plainAddr
        2 [ARead (inl "EOF"%string); ARendezvous; ADeferClose]
        (spawned (withTrace startedWithCallback [EvConnClose 8]) 0%nat) = Some y2
      ∧ reader y2 = RDone ∧ sessions (gstate y2) = [].
Proof.
  destruct (RequestClose_then_read_failure countingHandler countingHandler
              countingHandler countingHandler plainAddr 2
              (set_onStop (Some 4%positive) (newSession 2 7 8 9 16 1))
              startedWithCallback 0%nat "EOF")
    as (E & y2 & Est & Hrd & _ & _ & Hs & _).
  - vm_compute. reflexivity.
  - vm_compute. discriminate.
  - split; [exact E|]. exists y2. split; [exact Est|]. split; [exact Hrd|].
    rewrite Hs. reflexivity.
Defined.


(** The end of the sample run. *)
Lemma closed_session_is_terminal_witness :
  sched closedRun = SReturned
  ∧ (∀ a, step countingHandler countingHandler countingHandler countingHandler
            plainAddr 2 a closedRun = None)
  ∧ sessions (gstate closedRun) = filter (λ x, x ≠ 2%positive) (sessions startedWithCallback)
  ∧ (2%positive ∉ sessions (gstate closedRun))
  ∧ heap (gstate closedRun)
    = <[2%positive := closedSession (set_onStop (Some 4%positive) (newSession 2 7 8 9 16 1))]>
        (heap startedWithCallback).
Proof.
  apply (closed_session_is_terminal countingHandler countingHandler countingHandler
           countingHandler plainAddr 2
           (set_onStop (Some 4%positive) (newSession 2 7 8 9 16 1))
           startedWithCallback 0%nat (sampleReads ++ [ARendezvous; ADeferClose])).
  - vm_compute. reflexivity.
  - vm_compute. reflexivity.
  - vm_compute. reflexivity.
Defined.

(** The one tick of the sample run. *)
Lemma one_load_of_four_per_tick_witness :
  ∃ added,
    trace (gstate closedRun) = trace startedWithCallback ++ added
    ∧ countLoads added = ticksOf (sampleReads ++ [ARendezvous; ADeferClose])
    ∧ Forall (λ e, isLoad e = true -> e = EvLoaderLoad 2 4) added.
Proof.
  apply (one_load_of_four_per_tick countingHandler countingHandler countingHandler
           countingHandler plainAddr 2
           (set_onStop (Some 4%positive) (newSession 2 7 8 9 16 1))
           startedWithCallback 0%nat (sampleReads ++ [ARendezvous; ADeferClose])).
  - vm_compute. reflexivity.
  - vm_compute. reflexivity.
Defined.

(** ** Runs in which [Close] is also called from outside *)

Section OpenRunFacts.

Context {HS : Type}.
Variable handleText : Ptr -> string -> HS -> HS * option Err.
Variable handleCommandRequest : Ptr -> string -> HS -> HS * option Err.
Variable handleMovePlayer : Ptr -> string -> HS -> HS * option Err.
Variable handleRequestChunkRadius : Ptr -> string -> HS -> HS * option Err.
Variable remoteAddr : Conn -> string.

Local Abbreviation body' :=
  (handlePackets_body handleText handleCommandRequest handleMovePlayer
                      handleRequestChunkRadius remoteAddr).
Local Abbreviation step' :=
  (step handleText handleCommandRequest handleMovePlayer
        handleRequestChunkRadius remoteAddr).
Local Abbreviation openStep' :=
  (openStep handleText handleCommandRequest handleMovePlayer
            handleRequestChunkRadius remoteAddr).
Local Abbreviation openSteps' :=
  (openSteps handleText handleCommandRequest handleMovePlayer
             handleRequestChunkRadius remoteAddr).

Lemma openSteps_app s acts1 acts2 (y : Sys (HS := HS)) :
  openSteps' s (acts1 ++ acts2) y =
  match openSteps' s acts1 y with
  | Some y1 => openSteps' s acts2 y1
  | None => None
  end.
Proof.
  revert y. induction acts1 as [|a acts1 IH]; intros y; [done|].
  cbn. destruct (openStep' s a y); [apply IH|done].
Qed.

Lemma spawned_OpenHealthy s r st (h : HS) :
  heap st !! s = Some r -> OpenHealthy s (spawned st h).
Proof. intros Hr. split; cbn; eauto. Qed.

Lemma openStep_OpenHealthy s a (y y' : Sys (HS := HS)) :
  OpenHealthy s y -> openStep' s a y = Some y' -> OpenHealthy s y'.
Proof.
  intros [Hh Hpc] Hst. destruct a as [a|]; cbn [openStep] in Hst.
  - assert (Healthy s y) as Hy.
    { split; [done|]. unfold step in Hst.
      destruct (reader y) as [|[?|]|[?|]| |]; try done. by destruct a. }
    destruct (step_Healthy _ _ _ _ _ s a y y' Hy Hst) as [Hh' Hpc'].
    split; [done|]. by destruct (reader y') as [|[?|]|[?|]| |].
  - pose proof (Close_keeps_session s (gstate y) Hh) as Hk.
    unfold externalCloseStep in Hst.
    destruct (reader y) as [|[?|]|[?|]| |] eqn:Hrd, (sched y) eqn:Hsc;
      try done; injection Hst as <-;
      destruct (Close s (gstate y)); cbn in Hk |- *; split; cbn;
      rewrite ?Hrd, ?Hsc; done.
Qed.

Lemma openSteps_OpenHealthy s acts : ∀ (y y' : Sys (HS := HS)),
  OpenHealthy s y -> openSteps' s acts y = Some y' -> OpenHealthy s y'.
Proof.
  induction acts as [|a acts IH]; intros y y' Hy Hst; cbn in Hst.
  - by injection Hst as <-.
  - destruct (openStep' s a y) as [y1|] eqn:E; [|done].
    eapply IH; [|done]. by eapply openStep_OpenHealthy.
Qed.

(** Once the scheduler has left its [select] nothing loads any more,
    whoever acts. *)
Lemma openStep_without_scheduler s a (y y' : Sys (HS := HS)) :
  sched y ≠ SSelect -> openStep' s a y = Some y' ->
  sched y' ≠ SSelect
  ∧ countLoads (trace (gstate y')) = countLoads (trace (gstate y)).
Proof.
  intros Hsc Hst. destruct a as [a|]; cbn [openStep] in Hst.
  - unfold step in Hst.
    destruct a as [rd|ld| |], (reader y) as [|p|p| |] eqn:Hrd,
      (sched y) as [| |] eqn:Hs; try done; injection Hst as <-.
    + destruct (handlePackets_body_trace handleText handleCommandRequest
                  handleMovePlayer handleRequestChunkRadius remoteAddr
                  s rd (hstate y) (gstate y)) as (evs & Ht & Hl).
      unfold readStep.
      destruct (body' s rd (hstate y) (gstate y)) as [[h' [|]] st'|msg st'];
        cbn in Ht |- *; rewrite Hs, Ht, countLoads_app, (countLoads_none evs);
        try (split; [done|lia]);
        (eapply Forall_impl; [exact Hl|]; intros e He; by destruct e).
    + destruct (Close_trace s (gstate y)) as (evs & Ht & Hl).
      unfold closeStep.
      destruct (Close s (gstate y)) as [? st'|msg st'], p;
        cbn in Ht |- *; rewrite Hs, Ht, countLoads_app, (countLoads_none evs) by done;
        (split; [done|lia]).
  - destruct (Close_trace s (gstate y)) as (evs & Ht & Hl).
    unfold externalCloseStep in Hst.
    destruct (reader y) as [|p|p| |] eqn:Hrd, (sched y) as [| |] eqn:Hs;
      try done; injection Hst as <-;
      destruct (Close s (gstate y)) as [? st'|msg st'];
      cbn in Ht |- *; rewrite ?Hs, Ht, countLoads_app, (countLoads_none evs) by done;
      (split; [done|lia]).
Qed.

Lemma openSteps_without_scheduler s acts : ∀ (y y' : Sys (HS := HS)),
  sched y ≠ SSelect -> openSteps' s acts y = Some y' ->
  sched y' ≠ SSelect
  ∧ countLoads (trace (gstate y')) = countLoads (trace (gstate y)).
Proof.
  induction acts as [|a acts IH]; intros y y' Hsc Hst; cbn in Hst.
  - by injection Hst as <-.
  - destruct (openStep' s a y) as [y1|] eqn:E; [|done].
    destruct (openStep_without_scheduler s a y y1 Hsc E) as [Hsc1 Hc1].
    destruct (IH y1 y' Hsc1 Hst) as [Hsc' Hc']. split; [done|]. by rewrite Hc', Hc1.
Qed.

(** C8.  Take a session built by [New] and any run of its two activities
    in which [Close] may also be called from outside.  When the read loop
    has ended, its deferred function cannot call [Close] yet: it offers
    the signal on the channel, the scheduler takes it from its [select] in
    the same step and returns, and nothing else changes.  The deferred
    function calls [Close] when, and only when, that has happened.  From
    a scheduler that has returned no tick follows, and whatever happens
    next, the call of [Close] by the deferred function included, the trace
    gains no load. *)
Theorem no_load_once_Close_begins (s : Ptr) (r0 : Session) (st0 : State) (h0 : HS)
    (acts : list OpenAction) (y : Sys) :
  heap st0 !! s = Some r0 ->
  openSteps' s acts (spawned st0 h0) = Some y ->
  (∀ p, reader y = RSend p ->
     openStep' s (Own ADeferClose) y = None
     ∧ ∃ y1, openStep' s (Own ARendezvous) y = Some y1
         ∧ reader y1 = RClose p ∧ sched y1 = SReturned
         ∧ gstate y1 = gstate y ∧ hstate y1 = hstate y)
  ∧ (∀ y1, openStep' s (Own ADeferClose) y = Some y1 -> ∃ p, reader y = RClose p)
  ∧ (∀ p, reader y = RClose p ->
       sched y = SReturned
       ∧ ∃ y1, openStep' s (Own ADeferClose) y = Some y1
           ∧ gstate y1 = stateOf (Close s (gstate y))
           ∧ closeBegun (reader y1) = true)
  ∧ (sched y = SReturned ->
       (∀ ld, openStep' s (Own (ATick ld)) y = None)
       ∧ ∀ acts' y', openSteps' s acts' y = Some y' ->
           sched y' ≠ SSelect
           ∧ countLoads (trace (gstate y')) = countLoads (trace (gstate y))).
Proof.
  intros Hr0 Hst.
  pose proof (openSteps_OpenHealthy s acts _ _
                (spawned_OpenHealthy s r0 st0 h0 Hr0) Hst) as [_ Hpc].
  split; [|split; [|split]].
  - intros p Hrd. rewrite Hrd in Hpc. destruct p as [?|]; [done|].
    cbn [openStep]. unfold step. rewrite Hrd, Hpc. split; [done|].
    eexists. split; [reflexivity|]. done.
  - intros y1 E. cbn [openStep] in E. unfold step in E.
    destruct (reader y) as [|p|p| |], (sched y); try done; eauto.
  - intros p Hrd. rewrite Hrd in Hpc. destruct p as [?|]; [done|].
    split; [done|]. cbn [openStep]. unfold step. rewrite Hrd, Hpc.
    eexists. split; [reflexivity|]. unfold closeStep.
    destruct (Close s (gstate y)); done.
  - intros Hsc. split.
    + intros ld. cbn [openStep]. unfold step. rewrite Hsc. by destruct (reader y).
    + intros acts' y' Hst'. apply (openSteps_without_scheduler s acts' y y'); [|done].
      by rewrite Hsc.
Qed.

(** What one call of [Close] does to the stop callback of a session. *)
Lemma Close_callback s r st :
  heap st !! s = Some r ->
  (Close s st = Panic "runtime error: makeslice: cap out of range"
                  (withTrace st (closeEvents s r)))
  ∨ (∃ st1, Close s st = Ok None st1
       ∧ heap st1 !! s = Some (closedSession r)
       ∧ trace st1 = trace st ++ closeEvents s r ++ stopEvents r).
Proof.
  intros Hr. destruct (decide (sessions st = [])) as [He|Hne].
  - left. rewrite (Close_empty s r st Hr He). unfold withTrace. by rewrite He.
  - right. destruct (Close_ok s r st Hr Hne) as (st1 & E & Hh & _ & Ht & _).
    exists st1. split; [done|]. split; [|done]. rewrite Hh. apply lookup_insert_eq.
Qed.

Lemma CallbackOnce_log s r0 n0 st evs :
  Forall (λ e, isLog e = true ∨ ∃ s' n, e = EvLoaderLoad s' n) evs ->
  CallbackOnce s r0 n0 st -> CallbackOnce s r0 n0 (withTrace st evs).
Proof.
  intros Hev (r & Hr & Hc & Hk & Hw & Hcase). exists r. do 4 (split; [done|]).
  unfold withTrace. cbn [trace]. rewrite countOnStop_app, (countOnStop_none evs Hev).
  destruct Hcase as [[? ?]|[? ?]]; [left|right]; split; (done || lia).
Qed.

Lemma CallbackOnce_Close s r0 n0 st :
  CallbackOnce s r0 n0 st -> CallbackOnce s r0 n0 (stateOf (Close s st)).
Proof.
  intros (r & Hr & Hc & Hk & Hw & Hcase).
  destruct (Close_callback s r st Hr) as [E|(st1 & E & Hr1 & Ht)]; rewrite E; cbn [stateOf].
  - exists r. do 4 (split; [done|]). unfold withTrace. cbn [trace].
    rewrite countOnStop_app. change (countOnStop (closeEvents s r)) with 0%nat.
    destruct Hcase as [[? ?]|[? ?]]; [left|right]; split; (done || lia).
  - exists (closedSession r). do 4 (split; [done|]). right. split; [done|].
    rewrite Ht, !countOnStop_app. change (countOnStop (closeEvents s r)) with 0%nat.
    unfold stopEvents.
    destruct Hcase as [[Ho Hn]|[Ho Hn]]; rewrite Ho, Hn;
      [destruct (onStop r0)|]; cbn; lia.
Qed.

Lemma openStep_CallbackOnce s r0 n0 a (y y' : Sys (HS := HS)) :
  CallbackOnce s r0 n0 (gstate y) -> openStep' s a y = Some y' ->
  CallbackOnce s r0 n0 (gstate y').
Proof.
  intros Hy Hst. pose proof Hy as (r & Hr & _).
  pose proof (CallbackOnce_Close s r0 n0 (gstate y) Hy) as Hc.
  destruct a as [[rd|ld| |]|]; cbn [openStep] in Hst; unfold step in Hst.
  - destruct (handlePackets_body_shape handleText handleCommandRequest
                handleMovePlayer handleRequestChunkRadius remoteAddr
                s r rd (hstate y) (gstate y) Hr) as (ctl & logs & Eb & Hl).
    assert (CallbackOnce s r0 n0 (withTrace (gstate y) logs)) as Hw.
    { apply CallbackOnce_log; [|done].
      eapply Forall_impl; [exact Hl|]. cbn. by left. }
    destruct (reader y), (sched y); try done; injection Hst as <-;
      unfold readStep; rewrite Eb; by destruct ctl.
  - assert (CallbackOnce s r0 n0 (withTrace (gstate y) (tickEvents s [ld]))) as Hw.
    { apply CallbackOnce_log; [|done].
      destruct ld; cbn;
        repeat (apply Forall_cons_2; [first [by left|right; eauto]|]);
        apply Forall_nil_2. }
    destruct (reader y), (sched y); try done; injection Hst as <-;
      unfold tickStep; by rewrite (sendChunks_tick_ok s r ld _ Hr).
  - destruct (reader y), (sched y); try done; by injection Hst as <-.
  - destruct (reader y) as [|p|p| |], (sched y); try done; injection Hst as <-;
      unfold closeStep; by destruct (Close s (gstate y)), p.
  - unfold externalCloseStep in Hst.
    destruct (reader y), (sched y); try done; injection Hst as <-;
      by destruct (Close s (gstate y)).
Qed.

Lemma openSteps_CallbackOnce s r0 n0 acts : ∀ (y y' : Sys (HS := HS)),
  CallbackOnce s r0 n0 (gstate y) -> openSteps' s acts y = Some y' ->
  CallbackOnce s r0 n0 (gstate y').
Proof.
  induction acts as [|a acts IH]; intros y y' Hy Hst; cbn in Hst.
  - by injection Hst as <-.
  - destruct (openStep' s a y) as [y1|] eqn:E; [|done].
    eapply IH; [|done]. by eapply openStep_CallbackOnce.
Qed.

(** X10.  [Close] called from outside on a session whose read loop runs,
    and then a read that fails: the deferred function meets the scheduler
    and calls [Close] a second time.  The second call closes the
    controllable, the connection and the loader once more, removes the
    entity from the world once more and announces the departure once
    more.  If no other session is open the slice of open sessions is
    empty by then, and the second call panics in [closePlayerList]; with
    another session open it returns.  The stop callback was called by the
    first call, before the read loop ended. *)
Theorem Close_from_outside_then_read_failure (s : Ptr) (r : Session) (st : State)
    (h : HS) (e : Err) :
  heap st !! s = Some r -> sessions st ≠ [] ->
  ∃ y, openSteps' s [ExternalClose; Own (ARead (inl e)); Own ARendezvous;
                     Own ADeferClose] (spawned st h) = Some y
    ∧ reader y = (if decide (filter (λ x, x ≠ s) (sessions st) = [])
                  then RCrashed else RDone)
    ∧ sched y = SReturned ∧ hstate y = h
    ∧ trace (gstate y) = trace st ++ closeEvents s r ++ stopEvents r ++ closeEvents s r
    ∧ sessions (gstate y) = filter (λ x, x ≠ s) (sessions st)
    ∧ heap (gstate y) = <[s := closedSession r]> (heap st).
Proof.
  intros Hr Hne.
  destruct (Close_ok s r st Hr Hne) as (st1 & E1 & Hh1 & Hs1 & Ht1 & _).
  assert (heap st1 !! s = Some (closedSession r)) as Hr1
    by (rewrite Hh1; apply lookup_insert_eq).
  assert (openStep' s ExternalClose (spawned st h) = Some (spawned st1 h)) as S1.
  { cbn. unfold externalCloseStep. cbn. by rewrite E1. }
  assert (openStep' s (Own (ARead (inl e))) (spawned st1 h) =
          Some {| gstate := st1; hstate := h; reader := RSend None; sched := SSelect |})
    as S2.
  { cbn [openStep]. unfold step, readStep, handlePackets_body, bind, deref. cbn.
    by rewrite Hr1. }
  exists (closeStep s None
            {| gstate := st1; hstate := h; reader := RClose None; sched := SReturned |}).
  split.
  { cbn [openSteps]. rewrite S1, S2. reflexivity. }
  unfold closeStep. cbn [gstate hstate sched].
  case_decide as Hd.
  - rewrite (Close_empty s (closedSession r) st1 Hr1) by (by rewrite Hs1).
    cbn. rewrite Ht1, Hh1, <- !app_assoc. done.
  - destruct (Close_ok s (closedSession r) st1 Hr1) as (st2 & E2 & Hh2 & Hs2 & Ht2 & _);
      [by rewrite Hs1|].
    rewrite E2. cbn.
    do 3 (split; [done|]). split; [|split].
    + rewrite Ht2, Ht1. change (stopEvents (closedSession r)) with (@nil Event).
      by rewrite app_nil_r, <- !app_assoc.
    + rewrite Hs2, Hs1, list_filter_filter. apply list_filter_iff. tauto.
    + rewrite Hh2, Hh1. apply insert_insert_eq.
Qed.

(** X11.  In a run of the activities of a session built by [New] in which
    [Close] is also called from outside, any number of times and at any
    moment, but one call after the other, the stop callback that was
    recorded when the run began is called at most once, and with the
    controllable of the session: it has been called exactly when the
    session no longer records it.  A call of [Close] that returns leaves
    it called once and cleared; a call that panics in [closePlayerList]
    does not get to it. *)
Theorem stop_callback_at_most_once (s : Ptr) (r0 : Session) (st0 : State) (h0 : HS)
    (acts : list OpenAction) (y : Sys) :
  heap st0 !! s = Some r0 ->
  openSteps' s acts (spawned st0 h0) = Some y ->
  ∃ r, heap (gstate y) !! s = Some r
    ∧ c r = c r0
    ∧ (onStop r = onStop r0 ∨ onStop r = None)
    ∧ countOnStop (trace (gstate y))
      = (countOnStop (trace st0)
         + match onStop r0, onStop r with Some _, None => 1 | _, _ => 0 end)%nat
    ∧ (∀ cb, onStop r = Some cb ->
         ∃ evs, trace (stateOf (Close s (gstate y)))
                = trace (gstate y) ++ closeEvents s r0 ++ evs
           ∧ (evs = [EvOnStop cb (c r0)] ∨ evs = []))
    ∧ (∀ st1, Close s (gstate y) = Ok None st1 ->
         ∃ r1, heap st1 !! s = Some r1 ∧ onStop r1 = None
           ∧ countOnStop (trace st1)
             = (countOnStop (trace st0)
                + match onStop r0 with Some _ => 1 | None => 0 end)%nat).
Proof.
  intros Hr0 Hst.
  assert (CallbackOnce s r0 (countOnStop (trace st0)) st0) as H0.
  { exists r0. do 4 (split; [done|]). by left. }
  pose proof (openSteps_CallbackOnce s r0 _ acts (spawned st0 h0) y H0 Hst) as Hy.
  pose proof (CallbackOnce_Close s r0 _ (gstate y) Hy) as Hc.
  destruct Hy as (r & Hr & Hcr & Hk & Hw & Hcase).
  exists r. do 2 (split; [done|]). split; [|split; [|split]].
  - destruct Hcase as [[? _]|[? _]]; eauto.
  - destruct Hcase as [[Ho Hn]|[Ho Hn]]; rewrite Ho, Hn.
    + destruct (onStop r0); lia.
    + destruct (onStop r0); lia.
  - intros cb Hcb.
    assert (closeEvents s r = closeEvents s r0) as Hce
      by (unfold closeEvents; by rewrite Hcr, Hk, Hw).
    destruct (Close_callback s r (gstate y) Hr) as [E|(st1 & E & _ & Ht)];
      rewrite E; cbn [stateOf].
    + exists []. unfold withTrace. cbn [trace]. rewrite Hce, app_nil_r. eauto.
    + exists [EvOnStop cb (c r0)]. rewrite Ht, Hce. unfold stopEvents.
      rewrite Hcb, Hcr. eauto.
  - intros st1 E. rewrite E in Hc. cbn [stateOf] in Hc.
    destruct Hc as (r1 & Hr1 & _ & _ & _ & Hcase1).
    destruct (Close_callback s r (gstate y) Hr) as [E'|(st1' & E' & Hr1' & Ht)];
      rewrite E in E'; [done|]. injection E' as <-.
    exists (closedSession r). split; [done|]. split; [done|].
    rewrite Hr1 in Hr1'. injection Hr1' as ->.
    destruct Hcase1 as [[Ho Hn]|[Ho Hn]]; [|done].
    cbn in Ho. rewrite Hn. destruct (onStop r0); [done|lia].
Qed.

End OpenRunFacts.

(** ** A call of [Close] from outside, at work *)

(** C8, without its restriction to the [Close] of the deferred function,
    fails: a load can follow a [Close].  The started session of the sample is
    closed from outside while its read loop waits for a packet; [Close]
    returns, the stop callback included, and the next tick of the
    scheduler, which nobody has told to stop, loads four chunks. *)
Lemma load_after_Close_from_outside :
  ∃ y,
    openSteps countingHandler countingHandler countingHandler countingHandler
      plainAddr 2 [ExternalClose; Own (ATick None)] (spawned startedWithCallback 0%nat)
    = Some y
    ∧ reader y = RLoop ∧ sched y = SSelect
    ∧ trace (gstate y) =
        trace startedWithCallback ++
        [EvControllableClose 7; EvConnClose 8; EvLoaderClose 2;
         EvWorldRemoveEntity 9 7; EvChat 8 leftTheGame; EvOnStop 4 7;
         EvLoaderLoad 2 4].
Proof. eexists. split; [vm_compute; reflexivity|]. repeat split. Qed.

(** The run of the sample with a call of [Close] from outside, up to the
    read that fails, and what follows it. *)
Lemma no_load_once_Close_begins_witness :
  (∀ p, reader afterOpenSample = RSend p ->
     openStep countingHandler countingHandler countingHandler countingHandler
       plainAddr 2 (Own ADeferClose) afterOpenSample = None
     ∧ ∃ y1, openStep countingHandler countingHandler countingHandler countingHandler
               plainAddr 2 (Own ARendezvous) afterOpenSample = Some y1
         ∧ reader y1 = RClose p ∧ sched y1 = SReturned
         ∧ gstate y1 = gstate afterOpenSample ∧ hstate y1 = hstate afterOpenSample)
  ∧ (∀ y1, openStep countingHandler countingHandler countingHandler countingHandler
             plainAddr 2 (Own ADeferClose) afterOpenSample = Some y1 ->
       ∃ p, reader afterOpenSample = RClose p)
  ∧ (∀ p, reader afterOpenSample = RClose p ->
       sched afterOpenSample = SReturned
       ∧ ∃ y1, openStep countingHandler countingHandler countingHandler countingHandler
                 plainAddr 2 (Own ADeferClose) afterOpenSample = Some y1
           ∧ gstate y1 = stateOf (Close 2 (gstate afterOpenSample))
           ∧ closeBegun (reader y1) = true)
  ∧ (sched afterOpenSample = SReturned ->
       (∀ ld, openStep countingHandler countingHandler countingHandler countingHandler
                plainAddr 2 (Own (ATick ld)) afterOpenSample = None)
       ∧ ∀ acts' y', openSteps countingHandler countingHandler countingHandler
                       countingHandler plainAddr 2 acts' afterOpenSample = Some y' ->
           sched y' ≠ SSelect
           ∧ countLoads (trace (gstate y')) = countLoads (trace (gstate afterOpenSample))).
Proof.
  apply (no_load_once_Close_begins countingHandler countingHandler countingHandler
           countingHandler plainAddr 2
           (set_onStop (Some 4%positive) (newSession 2 7 8 9 16 1))
           startedWithCallback 0%nat openSample afterOpenSample).
  - vm_compute. reflexivity.
  - vm_compute. reflexivity.
Defined.

(** Where that run stands: the read loop has ended and offers the signal,
    two loads are in the trace, the second of them after [Close]. *)
Example afterOpenSample_stands :
  reader afterOpenSample = RSend None ∧ sched afterOpenSample = SSelect
  ∧ sessions (gstate afterOpenSample) = []
  ∧ trace (gstate afterOpenSample) =
      trace startedWithCallback ++
      [EvLoaderLoad 2 4;
       EvControllableClose 7; EvConnClose 8; EvLoaderClose 2;
       EvWorldRemoveEntity 9 7; EvChat 8 leftTheGame; EvOnStop 4 7;
       EvLoaderLoad 2 4; EvLogError "error loading chunk: world closed"].
Proof. repeat split; vm_compute; reflexivity. Qed.

(** The started session of the sample, alone in the slice, closed from
    outside: the [Close] of the deferred function panics. *)
Lemma Close_from_outside_then_read_failure_witness :
  ∃ y, openSteps countingHandler countingHandler countingHandler countingHandler
         plainAddr 2 [ExternalClose; Own (ARead (inl "EOF"%string)); Own ARendezvous;
                      Own ADeferClose] (spawned startedWithCallback 0%nat) = Some y
    ∧ reader y = RCrashed
    ∧ countOnStop (trace (gstate y)) = 1%nat
    ∧ last (trace (gstate y)) = Some (EvChat 8 leftTheGame).
Proof.
  destruct (Close_from_outside_then_read_failure countingHandler countingHandler
              countingHandler countingHandler plainAddr 2
              (set_onStop (Some 4%positive) (newSession 2 7 8 9 16 1))
              startedWithCallback 0%nat "EOF")
    as (y & Est & Hrd & _ & _ & Ht & _).
  - vm_compute. reflexivity.
  - vm_compute. discriminate.
  - exists y. split; [exact Est|]. split; [exact Hrd|]. rewrite Ht.
    split; vm_compute; reflexivity.
Defined.

(** With a second session open the same run ends in order. *)
Example Close_from_outside_with_others :
  ∃ y, openSteps countingHandler countingHandler countingHandler countingHandler
         plainAddr 3 [ExternalClose; Own (ARead (inl "EOF"%string)); Own ARendezvous;
                      Own ADeferClose] (spawned twoStarted 0%nat) = Some y
    ∧ reader y = RDone ∧ sessions (gstate y) = [2%positive]
    ∧ countOnStop (trace (gstate y)) = 1%nat.
Proof. eexists. split; [vm_compute; reflexivity|]. repeat split. Qed.

(** The callback of the sample in the run with a call of [Close] from
    outside and the [Close] of the deferred function after it. *)
Lemma stop_callback_at_most_once_witness :
  countOnStop (trace (gstate afterOpenSample)) = 1%nat
  ∧ ∃ r, heap (gstate afterOpenSample) !! 2%positive = Some r ∧ onStop r = None.
Proof.
  destruct (stop_callback_at_most_once countingHandler countingHandler countingHandler
              countingHandler plainAddr 2
              (set_onStop (Some 4%positive) (newSession 2 7 8 9 16 1))
              startedWithCallback 0%nat openSample afterOpenSample)
    as (r & Hr & _ & _ & Hn & _).
  - vm_compute. reflexivity.
  - vm_compute. reflexivity.
  - assert (r = closedSession (set_onStop (Some 4%positive) (newSession 2 7 8 9 16 1)))
      as Er by (vm_compute in Hr; injection Hr as <-; reflexivity).
    subst r. split; [rewrite Hn; vm_compute; reflexivity|].
    eexists. split; [exact Hr|reflexivity].
Defined.
